(** * The Cytomat serial transaction engine ([cytomat/serial_port.py])

    A shallow embedding of [SerialPort]: the framing of one command/response
    exchange ([communicate]), the prefix check ([check_prefix_and_strip]) and
    the two typed entry points ([issue_action_command],
    [issue_status_command]).

    Python values are represented as follows.
    - [str] is a list of Unicode code points ([N]);
    - [bytes] is a list of [Byte.byte];
    - a raised exception is the [Raise] outcome of a computation; mutations
      made before the exception stay in the state;
    - the [timeout: float] attribute is not represented: a timed-out operation
      is one whose resource (lock, line, incoming byte) is not available. *)

From Stdlib Require Import String Ascii.
From Stdlib Require Import List NArith ZArith Lia Bool.
From Stdlib Require Import Strings.Byte.
From Equations Require Import Equations.
From Equations.Prop Require Import Logic.
Import ListNotations.

Local Open Scope N_scope.

(* ===================================================================== *)
(** ** Strings and bytes *)
(* ===================================================================== *)

Definition str := list N.
Definition bytes := list byte.

(** A Python string literal of the source, as code points. *)
Definition lit (s : string) : str :=
  List.map N_of_ascii (list_ascii_of_string s).

Definition CR : byte := x0d.

Definition bytes_eqb (a b : bytes) : bool :=
  if list_eq_dec Byte.byte_eq_dec a b then true else false.

(** [s.startswith(prefix)] *)
Fixpoint startswith (s prefix : str) {struct prefix} : bool :=
  match prefix, s with
  | [], _ => true
  | p :: prefix', c :: s' => (c =? p) && startswith s' prefix'
  | _ :: _, [] => false
  end.

(** [b.endswith(suffix)] on bytes *)
Definition endswith (b suffix : bytes) : bool :=
  (length suffix <=? length b)%nat
  && bytes_eqb (skipn (length b - length suffix) b) suffix.

(** [s[i:j]] and [s[i:]] for non-negative indices *)
Definition slice (s : str) (i j : nat) : str := firstn (j - i) (skipn i s).
Definition slice_from (s : str) (i : nat) : str := skipn i s.

(** [str.isspace] of one code point ([Py_UNICODE_ISSPACE]) *)
Definition isspace (c : N) : bool :=
  ((0x09 <=? c) && (c <=? 0x0D))
  || ((0x1C <=? c) && (c <=? 0x1F))
  || (c =? 0x20) || (c =? 0x85) || (c =? 0xA0) || (c =? 0x1680)
  || ((0x2000 <=? c) && (c <=? 0x200A))
  || (c =? 0x2028) || (c =? 0x2029) || (c =? 0x202F) || (c =? 0x205F)
  || (c =? 0x3000).

Fixpoint lstrip (s : str) : str :=
  match s with
  | c :: s' => if isspace c then lstrip s' else s
  | [] => []
  end.

Definition rstrip (s : str) : str := rev (lstrip (rev s)).

(** [s.strip()] *)
Definition strip (s : str) : str := rstrip (lstrip s).

(* ===================================================================== *)
(** ** Exceptions and outcomes *)
(* ===================================================================== *)

(** What a [TimeoutError] reports.  The text raised by the lock helper is
    not part of the sources, so that case carries no text. *)
Inductive timeout_detail :=
| LockNotAcquired
| ReadTimedOut (msg : str).

Inductive exn :=
| TimeoutError (detail : timeout_detail)
| SerialCommunicationError (msg : str)
| SerialCommunicationError_from_error_code (error_code : Z)
| UnexpectedResponse (msg : str)
| InvalidCommand (msg : str)
| UnicodeEncodeError (object : str) (start : nat)
| UnicodeDecodeError (object : bytes) (start : nat)
| ValueError (literal : str)
| SerialTimeoutException.

Inductive outcome (A : Type) :=
| Return (a : A)
| Raise (e : exn).
Arguments Return {A} a.
Arguments Raise {A} e.

(** The two errors of the taxonomy that [issue_action_command] documents. *)
Definition is_communication_error (e : exn) : bool :=
  match e with
  | SerialCommunicationError _ | SerialCommunicationError_from_error_code _ => true
  | _ => false
  end.

Definition is_unexpected_response (e : exn) : bool :=
  match e with UnexpectedResponse _ => true | _ => false end.

(* ===================================================================== *)
(** ** The ASCII codec *)
(* ===================================================================== *)

(** [s.encode("ascii")]: the position of the first code point above 127 is
    reported by the error. *)
Fixpoint encode_from (pos : nat) (object s : str) : outcome bytes :=
  match s with
  | [] => Return []
  | c :: s' =>
      if c <? 128 then
        match Byte.of_N c, encode_from (S pos) object s' with
        | Some b, Return bs => Return (b :: bs)
        | Some _, Raise e => Raise e
        | None, _ => Raise (UnicodeEncodeError object pos)
        end
      else Raise (UnicodeEncodeError object pos)
  end.

Definition encode_ascii (s : str) : outcome bytes := encode_from 0 s s.

(** [b.decode("ascii")] *)
Fixpoint decode_from (pos : nat) (object b : bytes) : outcome str :=
  match b with
  | [] => Return []
  | x :: b' =>
      if Byte.to_N x <? 128 then
        match decode_from (S pos) object b' with
        | Return s => Return (Byte.to_N x :: s)
        | Raise e => Raise e
        end
      else Raise (UnicodeDecodeError object pos)
  end.

Definition decode_ascii (b : bytes) : outcome str := decode_from 0 b b.

(** [repr] of a bytes object, as interpolated by an f-string. *)
Definition hex_digit (n : N) : N :=
  if n <? 10 then 48 + n else 87 + n.

Definition repr_byte (quote : N) (x : byte) : str :=
  let c := Byte.to_N x in
  if (c =? quote) || (c =? 92) then [92; c]
  else if c =? 9 then lit "\t"
  else if c =? 10 then lit "\n"
  else if c =? 13 then lit "\r"
  else if (c <? 32) || (127 <=? c) then [92; 120; hex_digit (c / 16); hex_digit (c mod 16)]
  else [c].

Definition bytes_repr (b : bytes) : str :=
  let has q := existsb (fun x => Byte.to_N x =? q) b in
  let quote := if has 39 && negb (has 34) then 34 else 39 in
  [98; quote] ++ flat_map (repr_byte quote) b ++ [quote].

(* ===================================================================== *)
(** ** The channel *)
(* ===================================================================== *)

(** The engine uses three members of the [serial.Serial] handle:
    [in_waiting], [write] and [read] (one byte at a time).  The handle is
    represented by the bytes received and not yet read, the answer of the
    device at the other end to a written frame, and the record of the data
    transfers performed so far.

    [peer frame = None] stands for a line that does not take the frame within
    the write timeout.  A read on an empty input buffer lasts for the whole
    read timeout and returns no byte. *)
Inductive transfer :=
| Wrote (data : bytes)
| ReadOne (got : bytes).

Record Serial := {
  in_buffer : bytes;
  peer : bytes -> option bytes;
  transfers : list transfer
}.

(** [port.in_waiting] *)
Definition in_waiting (p : Serial) : nat := List.length (in_buffer p).

(** [port.write(data)] *)
Definition write (data : bytes) (p : Serial) : outcome nat * Serial :=
  match peer p data with
  | None => (Raise SerialTimeoutException, p)
  | Some reply =>
      (Return (List.length data),
       {| in_buffer := in_buffer p ++ reply;
          peer := peer p;
          transfers := transfers p ++ [Wrote data] |})
  end.

(** [port.read()] *)
Definition read (p : Serial) : bytes * Serial :=
  match in_buffer p with
  | [] =>
      ([], {| in_buffer := [];
              peer := peer p;
              transfers := transfers p ++ [ReadOne []] |})
  | x :: rest =>
      ([x], {| in_buffer := rest;
               peer := peer p;
               transfers := transfers p ++ [ReadOne [x]] |})
  end.

(** The data handed to [write], call by call. *)
Fixpoint written (ts : list transfer) : list bytes :=
  match ts with
  | [] => []
  | Wrote data :: ts' => data :: written ts'
  | ReadOne _ :: ts' => written ts'
  end.

(** The bytes handed out by [read], in order. *)
Fixpoint consumed (ts : list transfer) : bytes :=
  match ts with
  | [] => []
  | Wrote _ :: ts' => consumed ts'
  | ReadOne got :: ts' => got ++ consumed ts'
  end.

(* ===================================================================== *)
(** ** The engine state and its computations *)
(* ===================================================================== *)

(** [lock] is [true] while the [threading.Lock] is held. *)
Record SerialPort := {
  port : Serial;
  lock : bool
}.

Definition M (A : Type) : Type := SerialPort -> outcome A * SerialPort.

Definition ret {A} (a : A) : M A := fun self => (Return a, self).

Definition raise {A} (e : exn) : M A := fun self => (Raise e, self).

Definition bind {A B} (m : M A) (k : A -> M B) : M B := fun self =>
  match m self with
  | (Return a, self') => k a self'
  | (Raise e, self') => (Raise e, self')
  end.

(** A pure computation that may raise, run inside the engine. *)
Definition lift {A} (o : outcome A) : M A := fun self => (o, self).

Declare Scope engine_scope.
Delimit Scope engine_scope with engine.
Notation "x <- m ;; k" := (bind m (fun x => k))
  (at level 100, m at next level, right associativity) : engine_scope.
Notation "m ;;; k" := (bind m (fun _ => k))
  (at level 100, right associativity) : engine_scope.

Definition port_in_waiting : M nat := fun self =>
  (Return (in_waiting (port self)), self).

Definition port_write (data : bytes) : M nat := fun self =>
  let (r, p) := write data (port self) in
  (r, {| port := p; lock := lock self |}).

Definition port_read : M bytes := fun self =>
  let (char, p) := read (port self) in
  (Return char, {| port := p; lock := lock self |}).

(** Modelled from the spec: [cytomat.utils.lock_threading_lock], the context
    manager around the body of [communicate], is not part of the sources.
    The spec gives it as a scoped acquisition of the transaction lock with an
    acquisition timeout; if the lock cannot be acquired in time the call
    fails with a Timeout error, and the lock is released on every exit path
    of the body.  With no other thread to release it, a lock that is held
    stays held for the whole acquisition timeout. *)
Definition lock_threading_lock {A} (body : M A) : M A := fun self =>
  if lock self then (Raise (TimeoutError LockNotAcquired), self)
  else
    let (r, self') := body {| port := port self; lock := true |} in
    (r, {| port := port self'; lock := false |}).

(* ===================================================================== *)
(** ** [SerialPort.communicate] *)
(* ===================================================================== *)

(** The text of the [TimeoutError] raised in the read loop:
    [rf"Query: {command}, Error: Captured {char} as the last character of {raw_response}."] *)
Definition timeout_message (command : str) (char raw_response : bytes) : str :=
  lit "Query: " ++ command ++ lit ", Error: Captured " ++ bytes_repr char
  ++ lit " as the last character of " ++ bytes_repr raw_response ++ lit ".".

(** The loop
    [while not raw_response.endswith(b"\r"): char = self.port.read(); ...].
    Each turn that goes on has taken one byte out of the input buffer. *)
Equations? read_loop (command : str) (raw_response : bytes) (self : SerialPort)
  : outcome bytes * SerialPort by wf (in_waiting (port self)) lt :=
read_loop command raw_response self with endswith raw_response [CR] := {
  | true => (Return raw_response, self)
  | false with inspect (port_read self) := {
      | exist _ (Raise e, self') _ => (Raise e, self')
      | exist _ (Return char, self') _ with inspect char := {
          | exist _ [] _ =>
              (Raise (TimeoutError
                        (ReadTimedOut (timeout_message command char (raw_response ++ char)))),
               self')
          | exist _ (_ :: _) _ =>
              read_loop command (raw_response ++ char) self' } } }.
Proof.
  unfold port_read, read in e. unfold in_waiting.
  destruct (in_buffer (port self)) as [|x rest]; simpl in e.
  - discriminate e.
  - injection e as _ _ <-. simpl. lia.
Qed.

Definition stale_message : str := lit "There were unread bytes in the input buffer".

Definition communicate (command : str) : M str :=
  (raw_response <-
     lock_threading_lock
       (unread <- port_in_waiting ;;
        if negb (unread =? 0)%nat then
          raise (SerialCommunicationError stale_message)
        else
          encoded <- lift (encode_ascii command) ;;
          let raw_command := encoded ++ [CR] in
          let raw_response := [] in
          port_write raw_command ;;;
          read_loop command raw_response) ;;
   response <- lift (decode_ascii (removelast raw_response)) ;;
   ret response)%engine.

(* ===================================================================== *)
(** ** [SerialPort.check_prefix_and_strip] *)
(* ===================================================================== *)

Definition prefix_message (expected_prefix response : str) : str :=
  lit "Expected response prefix '" ++ expected_prefix
  ++ lit "', got response '" ++ response ++ lit "'".

Definition check_prefix_and_strip (response expected_prefix : str) : outcome str :=
  if startswith response expected_prefix then
    Return (strip (slice_from response (List.length expected_prefix)))
  else
    Raise (UnexpectedResponse (prefix_message expected_prefix response)).

(* ===================================================================== *)
(** ** [re.fullmatch] *)
(* ===================================================================== *)

(** The fragment of regular expressions that the pattern of
    [issue_status_command] is written in, closed under derivatives.
    [Dot] is [.] without [re.DOTALL]: any code point but the line feed. *)
Inductive regex :=
| Void
| Eps
| Chr (c : N)
| Range (lo hi : N)
| Dot
| Cat (r1 r2 : regex)
| Alt (r1 r2 : regex)
| Star (r : regex).

(** [r{n}] *)
Fixpoint times (n : nat) (r : regex) : regex :=
  match n with
  | O => Eps
  | S n' => Cat r (times n' r)
  end.

(** The literal text [s] as a pattern. *)
Fixpoint text (s : str) : regex :=
  match s with
  | [] => Eps
  | c :: s' => Cat (Chr c) (text s')
  end.

Fixpoint nullable (r : regex) : bool :=
  match r with
  | Void | Chr _ | Range _ _ | Dot => false
  | Eps | Star _ => true
  | Cat r1 r2 => nullable r1 && nullable r2
  | Alt r1 r2 => nullable r1 || nullable r2
  end.

Fixpoint deriv (c : N) (r : regex) : regex :=
  match r with
  | Void | Eps => Void
  | Chr c' => if c =? c' then Eps else Void
  | Range lo hi => if (lo <=? c) && (c <=? hi) then Eps else Void
  | Dot => if c =? 10 then Void else Eps
  | Cat r1 r2 =>
      if nullable r1 then Alt (Cat (deriv c r1) r2) (deriv c r2)
      else Cat (deriv c r1) r2
  | Alt r1 r2 => Alt (deriv c r1) (deriv c r2)
  | Star r1 => Cat (deriv c r1) (Star r1)
  end.

(** [re.fullmatch(pattern, s)] as a truth value. *)
Fixpoint fullmatch (pattern : regex) (s : str) : bool :=
  match s with
  | [] => nullable pattern
  | c :: s' => fullmatch (deriv c pattern) s'
  end.

(** The words a pattern stands for. *)
Inductive matches : regex -> str -> Prop :=
| m_eps : matches Eps []
| m_chr c : matches (Chr c) [c]
| m_range lo hi c : lo <= c -> c <= hi -> matches (Range lo hi) [c]
| m_dot c : c <> 10 -> matches Dot [c]
| m_cat r1 r2 s1 s2 : matches r1 s1 -> matches r2 s2 -> matches (Cat r1 r2) (s1 ++ s2)
| m_alt_l r1 r2 s : matches r1 s -> matches (Alt r1 r2) s
| m_alt_r r1 r2 s : matches r2 s -> matches (Alt r1 r2) s
| m_star_nil r : matches (Star r) []
| m_star_cons r s1 s2 : matches r s1 -> matches (Star r) s2 -> matches (Star r) (s1 ++ s2).

(** ["ch:[a-z]{2}.*"] *)
Definition status_command_pattern : regex :=
  Cat (text (lit "ch:")) (Cat (times 2 (Range 97 122)) (Star Dot)).

(* ===================================================================== *)
(** ** [int(text, base=16)] *)
(* ===================================================================== *)

(** [Py_ISSPACE]: the white space that the integer parser skips. *)
Definition c_isspace (c : N) : bool := (c =? 32) || ((9 <=? c) && (c <=? 13)).

(** [_PyLong_DigitValue] *)
Definition digit_value (c : N) : option Z :=
  if (48 <=? c) && (c <=? 57) then Some (Z.of_N c - 48)%Z
  else if (97 <=? c) && (c <=? 122) then Some (Z.of_N c - 87)%Z
  else if (65 <=? c) && (c <=? 90) then Some (Z.of_N c - 55)%Z
  else None.

Definition is_hex_digit (c : N) : bool :=
  match digit_value c with
  | Some d => (d <? 16)%Z
  | None => false
  end.

(** The digits of the numeral, single underscores allowed between them:
    the value read and the text left over, or [None] for a doubled or
    trailing underscore. *)
Fixpoint scan_digits (prev_underscore : bool) (acc : Z) (s : str) : option (Z * str) :=
  match s with
  | [] => if prev_underscore then None else Some (acc, s)
  | c :: s' =>
      if c =? 95 then
        if prev_underscore then None else scan_digits true acc s'
      else
        match digit_value c with
        | Some d =>
            if (d <? 16)%Z then scan_digits false (16 * acc + d)%Z s'
            else if prev_underscore then None else Some (acc, s)
        | None => if prev_underscore then None else Some (acc, s)
        end
  end.

Fixpoint skip_c_space (s : str) : str :=
  match s with
  | c :: s' => if c_isspace c then skip_c_space s' else s
  | [] => []
  end.

(** An optional sign. *)
Definition skip_sign (s : str) : Z * str :=
  match s with
  | c :: r =>
      if c =? 43 then (1%Z, r)
      else if c =? 45 then ((-1)%Z, r)
      else (1%Z, s)
  | [] => (1%Z, s)
  end.

(** An optional [0x] or [0X], after which one underscore may stand. *)
Definition skip_base_prefix (s : str) : str :=
  match s with
  | z :: x :: r =>
      if (z =? 48) && ((x =? 120) || (x =? 88)) then
        match r with
        | u :: r' => if u =? 95 then r' else r
        | [] => r
        end
      else s
  | _ => s
  end.

Definition starts_with_underscore (s : str) : bool :=
  match s with
  | c :: _ => c =? 95
  | [] => false
  end.

Section IntegerLiterals.

(** [Py_UNICODE_TODECIMAL] on the code points above 127: the table of the
    Unicode database, which is data outside the engine. *)
Variable unicode_decimal : N -> option N.

(** Code points above 127 are mapped to ASCII before parsing: white space
    to a blank, a decimal digit to its ASCII digit; at any other the text
    ends with a question mark. *)
Fixpoint transform_decimal_and_space (s : str) : str :=
  match s with
  | [] => []
  | ch :: s' =>
      if ch <? 128 then ch :: transform_decimal_and_space s'
      else if isspace ch then 32 :: transform_decimal_and_space s'
      else
        match unicode_decimal ch with
        | Some d => (48 + d) :: transform_decimal_and_space s'
        | None => [63]
        end
  end.

Definition int_base16 (literal : str) : outcome Z :=
  let s0 := skip_c_space (transform_decimal_and_space literal) in
  let '(sign, s1) := skip_sign s0 in
  let s2 := skip_base_prefix s1 in
  if starts_with_underscore s2 then Raise (ValueError literal)
  else
    match scan_digits false 0 s2 with
    | None => Raise (ValueError literal)
    | Some (z, rest) =>
        if (List.length rest =? List.length s2)%nat then Raise (ValueError literal)
        else
          match skip_c_space rest with
          | [] => Return (sign * z)%Z
          | _ :: _ => Raise (ValueError literal)
          end
    end.

End IntegerLiterals.

(* ===================================================================== *)
(** ** [SerialPort.issue_action_command] and [SerialPort.issue_status_command] *)
(* ===================================================================== *)

Definition action_message (response : str) : str :=
  lit "Expected response like 'ok XX' or 'er XX', got '" ++ response ++ lit "'".

Definition command_message (command : str) : str :=
  lit "Expected command like 'ch:xx' or 'ch:xx ...', got '" ++ command ++ lit "'".

(** Modelled from the spec: [SerialCommunicationError.from_error_code] of
    [cytomat.errors] is not part of the sources; the spec gives its result
    as a Communication error that carries the integer code. *)
Definition from_error_code (error_code : Z) : exn :=
  SerialCommunicationError_from_error_code error_code.

Section ActionCommands.

Variable unicode_decimal : N -> option N.

(** [cytomat.status.PlateShuttleSystemStatus] and its constructor
    [from_hex_string] are status tables outside the engine; the
    constructor either builds a status or raises. *)
Variable PlateShuttleSystemStatus : Type.
Variable from_hex_string : str -> outcome PlateShuttleSystemStatus.

Definition issue_action_command (command : str) : M PlateShuttleSystemStatus :=
  (response <- communicate command ;;
   if startswith response (lit "ok") then
     payload <- lift (check_prefix_and_strip response (lit "ok")) ;;
     lift (from_hex_string payload)
   else if startswith response (lit "er") then
     payload <- lift (check_prefix_and_strip response (lit "er")) ;;
     error_code <- lift (int_base16 unicode_decimal payload) ;;
     raise (from_error_code error_code)
   else
     raise (UnexpectedResponse (action_message response)))%engine.

End ActionCommands.

Definition issue_status_command (command : str) : M str :=
  if negb (fullmatch status_command_pattern command) then
    raise (InvalidCommand (command_message command))
  else
    (response <- communicate command ;;
     lift (check_prefix_and_strip response (slice command 3 5)))%engine.

(* ===================================================================== *)
(** ** The shapes the spec gives in words *)
(* ===================================================================== *)

Definition is_ascii (s : str) : Prop := Forall (fun c => c < 128) s.

Definition lowercase (c : N) : Prop := 97 <= c /\ c <= 122.

(** The shape of a status command in the words of the spec:
    [ch:], exactly two lowercase letters, then any trailer at all. *)
Definition status_shape_spec (command : str) : Prop :=
  exists a b trailer,
    command = lit "ch:" ++ [a; b] ++ trailer /\ lowercase a /\ lowercase b.

(** The shape that the pattern of the source accepts: the trailer holds no
    line feed. *)
Definition status_shape (command : str) : Prop :=
  exists a b trailer,
    command = lit "ch:" ++ [a; b] ++ trailer
    /\ lowercase a /\ lowercase b /\ ~ In 10 trailer.

(** The value of a text of hexadecimal digits, most significant first. *)
Definition hex_value (digits : str) : Z :=
  fold_left
    (fun acc c => (16 * acc + match digit_value c with Some d => d | None => 0 end)%Z)
    digits 0%Z.

(** A text made of hexadecimal digits only, at least one. *)
Definition hex_digits (digits : str) : Prop :=
  digits <> [] /\ Forall (fun c => is_hex_digit c = true) digits.

(** All of [s] is white space. *)
Definition blank (s : str) : Prop := Forall (fun c => isspace c = true) s.

(** [s] neither starts nor ends with white space. *)
Definition trimmed (s : str) : Prop :=
  (forall c s', s = c :: s' -> isspace c = false)
  /\ (forall c s', s = s' ++ [c] -> isspace c = false).

(** Reads that handed out the bytes [got], one byte each. *)
Definition one_by_one (got : bytes) : list transfer :=
  List.map (fun x => ReadOne [x]) got.

(** The engine after one exchange: [frame] went out in one [write], the
    bytes [got] were read one at a time, [left] stays in the input buffer. *)
Definition after_exchange (self : SerialPort) (frame got left : bytes) : SerialPort :=
  {| port :=
       {| in_buffer := left;
          peer := peer (port self);
          transfers :=
            transfers (port self)
            ++ Wrote frame :: one_by_one got |};
     lock := false |}.

(** A device that answers every frame with [reply], on an idle engine. *)
Definition idle_engine (reply : bytes) : SerialPort :=
  {| port := {| in_buffer := []; peer := fun _ => Some reply; transfers := [] |};
     lock := false |}.

(** The bytes of [s.encode("ascii")] when the encoding succeeds. *)
Definition encoding_of (s : str) : bytes :=
  match encode_ascii s with
  | Return encoded => encoded
  | Raise _ => []
  end.

(** ASCII text as bytes, for the examples. *)
Definition ascii_bytes (s : string) : bytes :=
  List.map byte_of_ascii (list_ascii_of_string s).

(** An idle engine whose device answers every frame with the ASCII text
    [s] and a carriage return. *)
Definition answering (s : string) : SerialPort :=
  idle_engine (ascii_bytes s ++ [CR]).

(** A device that sends every frame back as it came, on an idle engine. *)
Definition echo_engine : SerialPort :=
  {| port := {| in_buffer := []; peer := fun frame => Some frame; transfers := [] |};
     lock := false |}.

(** The failed read that ends an exchange without a terminator. *)
Definition timed_out (self : SerialPort) (frame reply : bytes) : SerialPort :=
  {| port :=
       {| in_buffer := [];
          peer := peer (port self);
          transfers :=
            transfers (port self)
            ++ Wrote frame :: one_by_one reply ++ [ReadOne []] |};
     lock := false |}.

(** Two calls of [communicate] in a row, both responses kept. *)
Definition communicate_twice (first second : str) : M (str * str) :=
  (r1 <- communicate first ;;
   r2 <- communicate second ;;
   ret (r1, r2))%engine.

(* ===================================================================== *)
(** ** Lists, strings and the codec *)
(* ===================================================================== *)

Lemma startswith_app (p rest : str) : startswith (p ++ rest) p = true.
Proof.
  induction p as [|c p IH]; simpl; [reflexivity|].
  now rewrite N.eqb_refl, IH.
Qed.

Lemma startswith_inv (s p : str) :
  startswith s p = true -> exists rest, s = p ++ rest.
Proof.
  revert s. induction p as [|c p IH]; intros s H.
  - now exists s.
  - destruct s as [|d s]; simpl in H; [discriminate|].
    apply andb_true_iff in H as [Hc Hs]. apply N.eqb_eq in Hc. subst d.
    destruct (IH _ Hs) as [rest ->]. now exists rest.
Qed.

Lemma startswith_false (s p : str) :
  (forall rest, s <> p ++ rest) -> startswith s p = false.
Proof.
  intros H. destruct (startswith s p) eqn:E; [|reflexivity].
  destruct (startswith_inv _ _ E) as [rest ->]. now destruct (H rest).
Qed.

Lemma slice_from_app (p rest : str) : slice_from (p ++ rest) (List.length p) = rest.
Proof.
  unfold slice_from. induction p; simpl; auto.
Qed.

Lemma endswith_nil : endswith [] [CR] = false.
Proof. reflexivity. Qed.

Lemma endswith_snoc (b : bytes) (x : byte) :
  endswith (b ++ [x]) [CR] = if Byte.byte_eq_dec x CR then true else false.
Proof.
  unfold endswith. rewrite length_app. simpl List.length.
  rewrite Nat.add_1_r. cbn [Nat.leb Nat.sub andb]. rewrite Nat.sub_0_r.
  rewrite skipn_app, skipn_all, Nat.sub_diag. simpl.
  unfold bytes_eqb.
  destruct (list_eq_dec byte_eq_dec [x] [CR]) as [E|E];
    destruct (byte_eq_dec x CR) as [F|F]; try reflexivity.
  - injection E as E. contradiction.
  - subst x. contradiction.
Qed.

Lemma read_loop_step (command : str) (raw_response : bytes) (self : SerialPort) :
  read_loop command raw_response self =
  if endswith raw_response [CR] then (Return raw_response, self)
  else
    match in_buffer (port self) with
    | [] =>
        (Raise (TimeoutError (ReadTimedOut (timeout_message command [] raw_response))),
         {| port := {| in_buffer := []; peer := peer (port self);
                       transfers := transfers (port self) ++ [ReadOne []] |};
            lock := lock self |})
    | x :: rest =>
        read_loop command (raw_response ++ [x])
          {| port := {| in_buffer := rest; peer := peer (port self);
                        transfers := transfers (port self) ++ [ReadOne [x]] |};
             lock := lock self |}
    end.
Proof.
  rewrite read_loop_equation_1.
  destruct (endswith raw_response [CR]); simpl; [reflexivity|].
  unfold port_read, read.
  destruct (in_buffer (port self)) as [|x rest]; simpl.
  - now rewrite app_nil_r.
  - reflexivity.
Qed.

Lemma encode_from_ascii (pos : nat) (object : str) (encoded : bytes) :
  is_ascii (List.map Byte.to_N encoded) ->
  encode_from pos object (List.map Byte.to_N encoded) = Return encoded.
Proof.
  revert pos. induction encoded as [|x encoded IH]; intros pos H; simpl.
  - reflexivity.
  - inversion H as [|? ? Hx Hrest]; subst.
    apply N.ltb_lt in Hx. rewrite Hx, Byte.of_to_N, IH by assumption.
    reflexivity.
Qed.

Lemma encode_from_total (pos : nat) (object s : str) :
  is_ascii s ->
  exists encoded, encode_from pos object s = Return encoded
                  /\ List.map Byte.to_N encoded = s.
Proof.
  revert pos. induction s as [|c s IH]; intros pos H; simpl.
  - now exists [].
  - inversion H as [|? ? Hc Hrest]; subst.
    destruct (IH (S pos) Hrest) as (encoded & E & M).
    destruct (Byte.of_N c) as [b|] eqn:B.
    + exists (b :: encoded). apply N.ltb_lt in Hc. rewrite Hc, E. simpl.
      apply Byte.to_of_N in B. now rewrite B, M.
    + apply Byte.of_N_None_iff in B. lia.
Qed.

Lemma encode_from_fails (pos : nat) (object s : str) :
  ~ is_ascii s ->
  exists k, encode_from pos object s = Raise (UnicodeEncodeError object (pos + k))
            /\ (k < List.length s)%nat
            /\ is_ascii (firstn k s)
            /\ 128 <= nth k s 0.
Proof.
  revert pos. induction s as [|c s IH]; intros pos H.
  - destruct H. constructor.
  - simpl. destruct (c <? 128) eqn:Hc.
    + apply N.ltb_lt in Hc.
      assert (Hs : ~ is_ascii s) by (intro Hs; apply H; now constructor).
      destruct (IH (S pos) Hs) as (k & E & Hk & Hpre & Hnth).
      exists (S k). rewrite E. simpl.
      destruct (Byte.of_N c) as [b|] eqn:B.
      * split; [do 2 f_equal; lia|].
        split; [lia|]. split; [now constructor | assumption].
      * apply Byte.of_N_None_iff in B. lia.
    + apply N.ltb_ge in Hc. exists 0%nat. simpl. rewrite Nat.add_0_r.
      split; [reflexivity|]. split; [lia|]. split; [constructor | assumption].
Qed.

Lemma decode_from_ascii (pos : nat) (object b : bytes) :
  is_ascii (List.map Byte.to_N b) ->
  decode_from pos object b = Return (List.map Byte.to_N b).
Proof.
  revert pos. induction b as [|x b IH]; intros pos H; simpl.
  - reflexivity.
  - inversion H as [|? ? Hx Hrest]; subst.
    apply N.ltb_lt in Hx. now rewrite Hx, IH.
Qed.

Lemma decode_from_inv (pos : nat) (object b : bytes) (s : str) :
  decode_from pos object b = Return s ->
  s = List.map Byte.to_N b /\ is_ascii s.
Proof.
  revert pos s. induction b as [|x b IH]; intros pos s H; simpl in H.
  - injection H as <-. split; [reflexivity | constructor].
  - destruct (Byte.to_N x <? 128) eqn:Hx; [|discriminate].
    destruct (decode_from (S pos) object b) as [s'|] eqn:E; [|discriminate].
    injection H as <-. destruct (IH _ _ E) as [-> Hs].
    split; [reflexivity|]. constructor; [now apply N.ltb_lt | assumption].
Qed.

Lemma removelast_snoc {A} (l : list A) (x : A) : removelast (l ++ [x]) = l.
Proof. rewrite removelast_app by discriminate. simpl. apply app_nil_r. Qed.

Lemma split_at_CR (buf : bytes) :
  ~ In CR buf \/ exists head tail, buf = head ++ CR :: tail /\ ~ In CR head.
Proof.
  induction buf as [|x buf IH].
  - left. intros [].
  - destruct (Byte.byte_eq_dec x CR) as [->|Hx].
    + right. exists [], buf. split; [reflexivity | intros []].
    + destruct IH as [IH | (head & tail & -> & Hhead)].
      * left. intros [E|E]; [now apply Hx | now apply IH].
      * right. exists (x :: head), tail. split; [reflexivity|].
        intros [E|E]; [now apply Hx | now apply Hhead].
Qed.

(* ===================================================================== *)
(** ** The read loop *)
(* ===================================================================== *)

Lemma read_loop_terminated (command : str) (head tail : bytes) :
  ~ In CR head ->
  forall (raw_response : bytes) (self : SerialPort),
    endswith raw_response [CR] = false ->
    in_buffer (port self) = head ++ CR :: tail ->
    read_loop command raw_response self =
    (Return (raw_response ++ head ++ [CR]),
     {| port := {| in_buffer := tail; peer := peer (port self);
                   transfers := transfers (port self) ++ one_by_one (head ++ [CR]) |};
        lock := lock self |}).
Proof.
  induction head as [|x head IH]; intros Hhead raw self Hraw Hbuf;
    rewrite read_loop_step, Hraw, Hbuf; simpl.
  - rewrite read_loop_step, endswith_snoc.
    destruct (byte_eq_dec CR CR) as [_|F]; [reflexivity | now destruct F].
  - rewrite IH with (raw_response := raw ++ [x]).
    + simpl. rewrite <- !app_assoc. reflexivity.
    + intro H. apply Hhead. now right.
    + rewrite endswith_snoc. destruct (byte_eq_dec x CR) as [->|_]; [|reflexivity].
      destruct Hhead. now left.
    + reflexivity.
Qed.

Lemma read_loop_timed_out (command : str) (buf : bytes) :
  ~ In CR buf ->
  forall (raw_response : bytes) (self : SerialPort),
    endswith raw_response [CR] = false ->
    in_buffer (port self) = buf ->
    read_loop command raw_response self =
    (Raise (TimeoutError (ReadTimedOut (timeout_message command [] (raw_response ++ buf)))),
     {| port := {| in_buffer := []; peer := peer (port self);
                   transfers := transfers (port self) ++ one_by_one buf ++ [ReadOne []] |};
        lock := lock self |}).
Proof.
  induction buf as [|x buf IH]; intros Hbuf raw self Hraw Hin;
    rewrite read_loop_step, Hraw, Hin; simpl.
  - now rewrite app_nil_r.
  - rewrite IH with (raw_response := raw ++ [x]).
    + simpl. rewrite <- !app_assoc. reflexivity.
    + intro H. apply Hbuf. now right.
    + rewrite endswith_snoc. destruct (byte_eq_dec x CR) as [->|_]; [|reflexivity].
      destruct Hbuf. now left.
    + reflexivity.
Qed.

(* ===================================================================== *)
(** ** The paths through [communicate] *)
(* ===================================================================== *)

Lemma written_app (t1 t2 : list transfer) : written (t1 ++ t2) = written t1 ++ written t2.
Proof.
  induction t1 as [|[data|got] t1 IH]; simpl; [reflexivity | now rewrite IH | assumption].
Qed.

Lemma consumed_app (t1 t2 : list transfer) : consumed (t1 ++ t2) = consumed t1 ++ consumed t2.
Proof.
  induction t1 as [|[data|got] t1 IH]; simpl;
    [reflexivity | assumption | now rewrite IH, app_assoc].
Qed.

Lemma written_one_by_one (got : bytes) : written (one_by_one got) = [].
Proof. induction got; simpl; auto. Qed.

Lemma consumed_one_by_one (got : bytes) : consumed (one_by_one got) = got.
Proof. induction got; simpl; [reflexivity | now f_equal]. Qed.

Lemma unlocked_eta (self : SerialPort) :
  lock self = false -> {| port := port self; lock := false |} = self.
Proof. destruct self; simpl; now intros ->. Qed.

Lemma in_waiting_0 (p : Serial) : in_waiting p = 0%nat <-> in_buffer p = [].
Proof. unfold in_waiting. destruct (in_buffer p); simpl; split; congruence. Qed.

Ltac enter_communicate :=
  unfold communicate, bind, lock_threading_lock, port_in_waiting, raise, lift,
    ret, port_write, write; simpl.

Lemma communicate_locked (command : str) (self : SerialPort) :
  lock self = true ->
  communicate command self = (Raise (TimeoutError LockNotAcquired), self).
Proof. intros L. enter_communicate. now rewrite L. Qed.

Lemma communicate_stale (command : str) (self : SerialPort) :
  lock self = false -> in_waiting (port self) <> 0%nat ->
  communicate command self = (Raise (SerialCommunicationError stale_message), self).
Proof.
  intros L W. enter_communicate. rewrite L.
  destruct (in_waiting (port self)) as [|n]; [now destruct W|]. simpl.
  now rewrite unlocked_eta.
Qed.

Lemma communicate_unencodable (command : str) (self : SerialPort) (e : exn) :
  lock self = false -> in_waiting (port self) = 0%nat ->
  encode_ascii command = Raise e ->
  communicate command self = (Raise e, self).
Proof.
  intros L W E. enter_communicate. rewrite L, W, E. simpl.
  now rewrite unlocked_eta.
Qed.

Lemma communicate_write_refused (command : str) (encoded : bytes) (self : SerialPort) :
  lock self = false -> in_waiting (port self) = 0%nat ->
  encode_ascii command = Return encoded ->
  peer (port self) (encoded ++ [CR]) = None ->
  communicate command self = (Raise SerialTimeoutException, self).
Proof.
  intros L W E P. enter_communicate. rewrite L, W, E. simpl. rewrite P. simpl.
  now rewrite unlocked_eta.
Qed.

Lemma communicate_answered (command : str) (encoded head tail : bytes) (self : SerialPort) :
  lock self = false -> in_waiting (port self) = 0%nat ->
  encode_ascii command = Return encoded ->
  peer (port self) (encoded ++ [CR]) = Some (head ++ CR :: tail) ->
  ~ In CR head ->
  communicate command self =
  (decode_ascii head, after_exchange self (encoded ++ [CR]) (head ++ [CR]) tail).
Proof.
  intros L W E P H. enter_communicate. rewrite L, W, E. simpl. rewrite P. simpl.
  apply in_waiting_0 in W.
  rewrite read_loop_terminated with (head := head) (tail := tail);
    [| assumption | apply endswith_nil | simpl; now rewrite W].
  simpl. rewrite removelast_snoc. unfold after_exchange.
  rewrite <- app_assoc. simpl.
  destruct (decode_ascii head); reflexivity.
Qed.

Lemma communicate_silent (command : str) (encoded reply : bytes) (self : SerialPort) :
  lock self = false -> in_waiting (port self) = 0%nat ->
  encode_ascii command = Return encoded ->
  peer (port self) (encoded ++ [CR]) = Some reply ->
  ~ In CR reply ->
  communicate command self =
  (Raise (TimeoutError (ReadTimedOut (timeout_message command [] reply))),
   {| port := {| in_buffer := []; peer := peer (port self);
                 transfers := transfers (port self)
                              ++ Wrote (encoded ++ [CR]) :: one_by_one reply ++ [ReadOne []] |};
      lock := false |}).
Proof.
  intros L W E P H. enter_communicate. rewrite L, W, E. simpl. rewrite P. simpl.
  apply in_waiting_0 in W.
  rewrite read_loop_timed_out with (buf := reply);
    [| assumption | apply endswith_nil | simpl; now rewrite W].
  simpl. rewrite <- app_assoc. reflexivity.
Qed.

Lemma encoding_of_ascii (command : str) :
  is_ascii command ->
  encode_ascii command = Return (encoding_of command)
  /\ List.map Byte.to_N (encoding_of command) = command.
Proof.
  intros H. unfold encoding_of, encode_ascii.
  destruct (encode_from_total 0 command command H) as (encoded & -> & M). now split.
Qed.

Lemma not_ascii (s : str) : Exists (fun c => 128 <= c) s -> ~ is_ascii s.
Proof.
  intros E A. apply Exists_exists in E as (c & Hin & Hc).
  unfold is_ascii in A. rewrite Forall_forall in A. specialize (A c Hin). lia.
Qed.

Lemma CR_not_in_decoded (head : bytes) :
  ~ In CR head -> ~ In 13 (List.map Byte.to_N head).
Proof.
  intros H Hin. apply in_map_iff in Hin as (x & Hx & Hin). apply H.
  replace CR with x; [assumption|].
  assert (E : Byte.of_N (Byte.to_N x) = Byte.of_N 13) by now rewrite Hx.
  rewrite Byte.of_to_N in E. now injection E.
Qed.

(* ===================================================================== *)
(** ** Properties of [communicate] *)
(* ===================================================================== *)

(** C1. On an engine whose lock is free and whose input buffer is empty, an
    ASCII command goes out in one [write] as its ASCII encoding followed by
    one carriage return; when the device's answer holds a carriage return
    (the reads up to it all yield a byte), the bytes before the first
    carriage return, decoded as ASCII, are what [communicate] gives back.
    A carriage return inside the command changes none of this. *)
Theorem communicate_round_trip
    (command : str) (head tail : bytes) (self : SerialPort) :
  is_ascii command ->
  lock self = false ->
  in_waiting (port self) = 0%nat ->
  peer (port self) (encoding_of command ++ [CR]) = Some (head ++ CR :: tail) ->
  ~ In CR head ->
  encode_ascii command = Return (encoding_of command)
  /\ List.map Byte.to_N (encoding_of command) = command
  /\ communicate command self =
     (decode_ascii head,
      after_exchange self (encoding_of command ++ [CR]) (head ++ [CR]) tail)
  /\ written (transfers (port (snd (communicate command self)))) =
     written (transfers (port self)) ++ [encoding_of command ++ [CR]]
  /\ (is_ascii (List.map Byte.to_N head) ->
      decode_ascii head = Return (List.map Byte.to_N head)).
Proof.
  intros A L W P H. destruct (encoding_of_ascii command A) as [E M].
  pose proof (communicate_answered command _ head tail self L W E P H) as C.
  split; [assumption|]. split; [assumption|]. split; [assumption|]. split.
  - rewrite C. simpl. rewrite written_app. simpl.
    now rewrite written_one_by_one.
  - apply decode_from_ascii.
Qed.

Lemma communicate_round_trip_witness :
  let command := lit "ch:bs" in
  let head := ascii_bytes "bs 01" in
  let self := idle_engine (head ++ [CR]) in
  communicate command self =
  (Return (lit "bs 01"),
   after_exchange self (ascii_bytes "ch:bs" ++ [CR]) (head ++ [CR]) [])
  /\ written (transfers (port (snd (communicate command self)))) =
     [ascii_bytes "ch:bs" ++ [CR]].
Proof.
  intros command head self.
  assert (A : is_ascii command) by (repeat constructor).
  assert (H : ~ In CR head) by (simpl; intuition discriminate).
  destruct (communicate_round_trip command head [] self A eq_refl eq_refl eq_refl H)
    as (_ & _ & C & Wr & _).
  split; [exact C | exact Wr].
Defined.

(** C3. With unread bytes in the input buffer at the start of the call (and
    the lock free), [communicate] raises the Communication error about
    unread bytes and leaves the engine as it was: nothing is written and
    none of the buffered bytes is read. *)
Theorem communicate_rejects_stale_input (command : str) (self : SerialPort) :
  lock self = false ->
  in_waiting (port self) <> 0%nat ->
  communicate command self =
  (Raise (SerialCommunicationError (lit "There were unread bytes in the input buffer")),
   self).
Proof. intros L W. now apply communicate_stale. Qed.

Lemma communicate_rejects_stale_input_witness :
  let self :=
    {| port := {| in_buffer := ascii_bytes "01"; peer := fun _ => Some [CR];
                  transfers := [] |};
       lock := false |} in
  lock self = false
  /\ in_waiting (port self) <> 0%nat
  /\ communicate (lit "ch:bs") self =
     (Raise (SerialCommunicationError (lit "There were unread bytes in the input buffer")),
      self).
Proof.
  intros self. split; [reflexivity|]. split; [discriminate|].
  apply communicate_rejects_stale_input; [reflexivity | discriminate].
Defined.



Lemma lock_threading_lock_releases {A} (body : M A) (self : SerialPort) :
  lock self = false ->
  lock (snd (lock_threading_lock body self)) = false.
Proof.
  intros L. unfold lock_threading_lock. rewrite L.
  destruct (body _) as [r self1]. reflexivity.
Qed.

(** C7. Modelled on the scoped lock of the spec: whenever [communicate]
    gets the lock, the lock is free again when the call is over, whether a
    response comes back or any step inside raises (unread bytes, a command
    that cannot be encoded, a refused write, a read timeout, a response
    that cannot be decoded). *)
Theorem communicate_releases_lock (command : str) (self : SerialPort) :
  lock self = false ->
  lock (snd (communicate command self)) = false.
Proof.
  intros L. unfold communicate, bind.
  match goal with
  | |- context [lock_threading_lock ?body self] =>
      pose proof (lock_threading_lock_releases body self L) as R;
      destruct (lock_threading_lock body self) as [[raw|e] self1]
  end; simpl in R; [|exact R].
  unfold lift, ret.
  destruct (decode_ascii (removelast raw)); exact R.
Qed.

Lemma communicate_releases_lock_witness :
  lock (snd (communicate (lit "ch:bs") (idle_engine (ascii_bytes "bs 01" ++ [CR])))) = false
  /\ lock (snd (communicate (lit "ch:bs") (idle_engine (ascii_bytes "bs")))) = false
  /\ lock (snd (communicate (lit "ch:bs") (idle_engine [xff; CR]))) = false
  /\ lock (snd (communicate (lit "ch:bs")
                  {| port := {| in_buffer := []; peer := fun _ => None; transfers := [] |};
                     lock := false |})) = false
  /\ lock (snd (communicate (lit "ch:bs")
                  {| port := {| in_buffer := [CR]; peer := fun _ => None; transfers := [] |};
                     lock := false |})) = false
  /\ lock (snd (communicate [233] (idle_engine [CR]))) = false.
Proof.
  repeat (apply conj); apply communicate_releases_lock; reflexivity.
Defined.

(** C9. A call of [communicate] that returns a response has read the bytes
    of the device's answer up to and including the first carriage return and
    no more; the response holds no carriage return; what the device sent
    after that carriage return is still in the input buffer, and while it is
    there the next call raises the unread-bytes error. *)
Theorem communicate_consumes_one_frame
    (command response : str) (self self' : SerialPort) :
  communicate command self = (Return response, self') ->
  exists head tail,
    peer (port self) (encoding_of command ++ [CR]) = Some (head ++ CR :: tail)
    /\ ~ In CR head
    /\ consumed (transfers (port self')) =
       consumed (transfers (port self)) ++ head ++ [CR]
    /\ response = List.map Byte.to_N head
    /\ ~ In 13 response
    /\ in_buffer (port self') = tail
    /\ (tail <> [] ->
        forall next,
          communicate next self' =
          (Raise (SerialCommunicationError stale_message), self')).
Proof.
  intros C.
  destruct (lock self) eqn:L.
  { rewrite communicate_locked in C by assumption. discriminate. }
  destruct (Nat.eq_dec (in_waiting (port self)) 0) as [W|W].
  2:{ rewrite communicate_stale in C by assumption. discriminate. }
  destruct (encode_ascii command) as [encoded|e] eqn:E.
  2:{ rewrite (communicate_unencodable command self e L W E) in C. discriminate. }
  assert (EO : encoding_of command = encoded) by (unfold encoding_of; now rewrite E).
  rewrite EO.
  destruct (peer (port self) (encoded ++ [CR])) as [reply|] eqn:P.
  2:{ rewrite (communicate_write_refused command encoded self L W E P) in C.
      discriminate. }
  destruct (split_at_CR reply) as [H | (head & tail & -> & H)].
  { rewrite (communicate_silent command encoded reply self L W E P H) in C.
    discriminate. }
  rewrite (communicate_answered command encoded head tail self L W E P H) in C.
  injection C as D <-.
  apply decode_from_inv in D as [-> _].
  exists head, tail. split; [reflexivity|]. split; [assumption|].
  split.
  { cbn [after_exchange port transfers]. rewrite consumed_app. cbn [consumed].
    now rewrite consumed_one_by_one. }
  split; [reflexivity|]. split; [now apply CR_not_in_decoded|].
  split; [reflexivity|].
  intros T next. apply communicate_stale; [reflexivity|].
  cbn [after_exchange port]. unfold in_waiting. cbn [in_buffer].
  destruct tail; [now destruct T | discriminate].
Qed.

Lemma communicate_consumes_one_frame_witness :
  let self := idle_engine (ascii_bytes "bs 01" ++ [CR] ++ ascii_bytes "ok 00" ++ [CR]) in
  let self' := snd (communicate (lit "ch:bs") self) in
  communicate (lit "ch:bs") self = (Return (lit "bs 01"), self')
  /\ consumed (transfers (port self')) = ascii_bytes "bs 01" ++ [CR]
  /\ in_buffer (port self') = ascii_bytes "ok 00" ++ [CR]
  /\ communicate (lit "ch:bs") self' =
     (Raise (SerialCommunicationError stale_message), self').
Proof.
  intros self self'.
  assert (C : communicate (lit "ch:bs") self = (Return (lit "bs 01"), self'))
    by reflexivity.
  destruct (communicate_consumes_one_frame _ _ _ _ C)
    as (head & tail & P & H & Cs & R & _ & B & S).
  split; [exact C|]. split; [reflexivity|]. split; [reflexivity|].
  apply S. rewrite <- B. discriminate.
Defined.

(** C10. With the lock free and the input buffer empty, a command that
    holds a code point above 127 makes [communicate] raise
    [UnicodeEncodeError] at the first such code point; the engine is left as
    it was: nothing has been written and the lock is free. *)
Theorem communicate_rejects_non_ascii (command : str) (self : SerialPort) :
  Exists (fun c => 128 <= c) command ->
  lock self = false ->
  in_waiting (port self) = 0%nat ->
  exists pos,
    communicate command self = (Raise (UnicodeEncodeError command pos), self)
    /\ is_ascii (firstn pos command)
    /\ 128 <= nth pos command 0
    /\ written (transfers (port (snd (communicate command self)))) =
       written (transfers (port self))
    /\ lock (snd (communicate command self)) = false.
Proof.
  intros X L W.
  destruct (encode_from_fails 0 command command (not_ascii command X))
    as (pos & E & _ & A & N).
  exists pos.
  rewrite (communicate_unencodable command self _ L W E). simpl.
  repeat split; assumption.
Qed.

Lemma communicate_rejects_non_ascii_witness :
  let command := lit "ch:b" ++ [233] in
  let self := idle_engine (ascii_bytes "bs 01" ++ [CR]) in
  exists pos,
    communicate command self = (Raise (UnicodeEncodeError command pos), self)
    /\ is_ascii (firstn pos command)
    /\ 128 <= nth pos command 0
    /\ written (transfers (port (snd (communicate command self)))) =
       written (transfers (port self))
    /\ lock (snd (communicate command self)) = false.
Proof.
  intros command self.
  apply communicate_rejects_non_ascii; [|reflexivity|reflexivity].
  unfold command. simpl. do 4 apply Exists_cons_tl. apply Exists_cons_hd.
  discriminate.
Defined.

(* ===================================================================== *)
(** ** Stripping and the prefix check *)
(* ===================================================================== *)

Lemma lstrip_blank (l s : str) : blank l -> lstrip (l ++ s) = lstrip s.
Proof.
  induction 1 as [|c l Hc _ IH]; simpl; [reflexivity|]. now rewrite Hc.
Qed.

Lemma lstrip_all_blank (l : str) : blank l -> lstrip l = [].
Proof.
  intros H. rewrite <- (app_nil_r l). now rewrite lstrip_blank.
Qed.

Lemma lstrip_keeps (c : N) (s : str) : isspace c = false -> lstrip (c :: s) = c :: s.
Proof. intros H. simpl. now rewrite H. Qed.

Lemma blank_rev (l : str) : blank l -> blank (rev l).
Proof. apply Forall_rev. Qed.

Lemma rstrip_blank (s r : str) : blank r -> rstrip (s ++ r) = rstrip s.
Proof.
  intros H. unfold rstrip. rewrite rev_app_distr, lstrip_blank; [reflexivity|].
  now apply blank_rev.
Qed.

Lemma rstrip_keeps (s : str) (c : N) : isspace c = false -> rstrip (s ++ [c]) = s ++ [c].
Proof.
  intros H. unfold rstrip. rewrite rev_app_distr. simpl rev at 2.
  simpl app. rewrite lstrip_keeps by assumption.
  change (c :: rev s) with (rev [c] ++ rev s).
  now rewrite <- rev_app_distr, rev_involutive.
Qed.

(** [strip] gives back the text between the leading and the trailing white
    space. *)
Lemma strip_spec (l payload r : str) :
  blank l -> blank r -> trimmed payload -> strip (l ++ payload ++ r) = payload.
Proof.
  intros Hl Hr [Hfirst Hlast]. unfold strip. rewrite lstrip_blank by assumption.
  destruct payload as [|c payload].
  - simpl. now rewrite lstrip_all_blank.
  - simpl app. rewrite lstrip_keeps by (eapply Hfirst; reflexivity).
    change (c :: payload ++ r) with ((c :: payload) ++ r).
    rewrite rstrip_blank by assumption.
    destruct (exists_last (l := c :: payload)) as (body & d & E); [discriminate|].
    rewrite E. apply rstrip_keeps. eapply Hlast. exact E.
Qed.

Lemma lstrip_split (s : str) :
  exists l, s = l ++ lstrip s /\ blank l
            /\ forall c s', lstrip s = c :: s' -> isspace c = false.
Proof.
  induction s as [|c s (l & E & B & F)].
  - exists []. repeat split; [constructor | discriminate].
  - simpl. destruct (isspace c) eqn:Hc.
    + exists (c :: l). split; [simpl; now f_equal|]. split; [now constructor|].
      exact F.
    + exists []. split; [reflexivity|]. split; [constructor|].
      intros d s' H. now injection H as <- _.
Qed.

(** Whatever the text, [strip] leaves a trimmed text and drops only white
    space. *)
Lemma strip_split (s : str) :
  exists l r, s = l ++ strip s ++ r /\ blank l /\ blank r /\ trimmed (strip s).
Proof.
  destruct (lstrip_split s) as (l & El & Bl & Fl).
  destruct (lstrip_split (rev (lstrip s))) as (r & Er & Br & Fr).
  assert (E : lstrip s = strip s ++ rev r).
  { unfold strip, rstrip. rewrite <- rev_app_distr, <- Er. now rewrite rev_involutive. }
  exists l, (rev r). split; [now rewrite <- E|]. split; [assumption|].
  split; [now apply blank_rev|]. split.
  - intros c s' H. rewrite H in E. simpl in E. eapply Fl. exact E.
  - intros c s' H. unfold strip, rstrip in H.
    apply (f_equal (@rev N)) in H. rewrite rev_involutive, rev_app_distr in H.
    simpl in H. eapply Fr. exact H.
Qed.

(** C6. [check_prefix_and_strip] depends on its two arguments only.  On a
    response that starts with the expected prefix it returns what follows
    the prefix, stripped of the white space around it; on any other
    response it raises an Unexpected-Response error whose text quotes the
    expected prefix and the response.  Run inside the engine it leaves the
    channel and the lock as they are. *)
Theorem check_prefix_and_strip_spec (response expected_prefix : str) :
  (forall rest,
      response = expected_prefix ++ rest ->
      check_prefix_and_strip response expected_prefix = Return (strip rest)
      /\ trimmed (strip rest)
      /\ exists l r, rest = l ++ strip rest ++ r /\ blank l /\ blank r)
  /\ (forall l payload r,
         response = expected_prefix ++ l ++ payload ++ r ->
         blank l -> blank r -> trimmed payload ->
         check_prefix_and_strip response expected_prefix = Return payload)
  /\ ((forall rest, response <> expected_prefix ++ rest) ->
      check_prefix_and_strip response expected_prefix =
      Raise (UnexpectedResponse
               (lit "Expected response prefix '" ++ expected_prefix
                ++ lit "', got response '" ++ response ++ lit "'")))
  /\ (forall self : SerialPort,
         lift (check_prefix_and_strip response expected_prefix) self =
         (check_prefix_and_strip response expected_prefix, self)).
Proof.
  assert (P : forall rest, response = expected_prefix ++ rest ->
                check_prefix_and_strip response expected_prefix = Return (strip rest)).
  { intros rest ->. unfold check_prefix_and_strip.
    now rewrite startswith_app, slice_from_app. }
  split; [|split; [|split]].
  - intros rest E. split; [now apply P|].
    destruct (strip_split rest) as (l & r & E' & Bl & Br & T).
    split; [assumption|]. now exists l, r.
  - intros l payload r E Bl Br T. rewrite (P _ E). f_equal. now apply strip_spec.
  - intros H. unfold check_prefix_and_strip.
    now rewrite (startswith_false _ _ H).
  - reflexivity.
Qed.

Lemma check_prefix_and_strip_spec_witness :
  check_prefix_and_strip (lit "bs  01 ") (lit "bs") = Return (lit "01")
  /\ check_prefix_and_strip (lit "er 01") (lit "ok") =
     Raise (UnexpectedResponse (lit "Expected response prefix 'ok', got response 'er 01'")).
Proof.
  split.
  - refine (proj1 (proj2 (check_prefix_and_strip_spec (lit "bs  01 ") (lit "bs")))
              (lit "  ") (lit "01") (lit " ") eq_refl _ _ _).
    + repeat constructor.
    + repeat constructor.
    + split; intros c s' E.
      * injection E as <- _. reflexivity.
      * destruct s' as [|x [|y [|z s']]]; try discriminate E.
        injection E as _ <-. reflexivity.
  - refine (proj1 (proj2 (proj2 (check_prefix_and_strip_spec (lit "er 01") (lit "ok")))) _).
    intros rest E. discriminate E.
Defined.

(* ===================================================================== *)
(** ** [fullmatch] decides [matches] *)
(* ===================================================================== *)

Lemma nullable_matches (r : regex) : nullable r = true <-> matches r [].
Proof.
  split.
  - induction r; simpl; intros H; try discriminate.
    + constructor.
    + apply andb_true_iff in H as [H1 H2].
      apply (m_cat r1 r2 [] []); auto.
    + apply orb_true_iff in H as [H|H]; [apply m_alt_l | apply m_alt_r]; auto.
    + constructor.
  - induction r; intros H; inversion H; subst; simpl; try reflexivity.
    + match goal with E : _ ++ _ = [] |- _ => apply app_eq_nil in E as [-> ->] end.
      rewrite IHr1, IHr2 by assumption. reflexivity.
    + rewrite IHr1 by assumption. reflexivity.
    + rewrite IHr2 by assumption. apply orb_true_r.
Qed.

Lemma deriv_sound (c : N) (r : regex) :
  forall s, matches (deriv c r) s -> matches r (c :: s).
Proof.
  induction r; simpl; intros s H.
  - inversion H.
  - inversion H.
  - destruct (c =? c0) eqn:E; inversion H; subst.
    apply N.eqb_eq in E. subst. constructor.
  - destruct ((lo <=? c) && (c <=? hi)) eqn:E; inversion H; subst.
    apply andb_true_iff in E as [E1 E2].
    constructor; [now apply N.leb_le | now apply N.leb_le].
  - destruct (c =? 10) eqn:E; inversion H; subst.
    constructor. now apply N.eqb_neq.
  - destruct (nullable r1) eqn:E.
    + inversion H as [| | | | | ? ? ? H' | ? ? ? H' | |]; subst.
      * inversion H' as [| | | |? ? s1 s2 H1 H2 | | | |]; subst.
        apply (m_cat r1 r2 (c :: s1) s2); auto.
      * apply (m_cat r1 r2 [] (c :: s)); [now apply nullable_matches | auto].
    + inversion H as [| | | |? ? s1 s2 H1 H2 | | | |]; subst.
      apply (m_cat r1 r2 (c :: s1) s2); auto.
  - inversion H; subst; [apply m_alt_l | apply m_alt_r]; auto.
  - inversion H as [| | | |? ? s1 s2 H1 H2 | | | |]; subst.
    apply (m_star_cons r (c :: s1) s2); auto.
Qed.

Lemma deriv_complete (r : regex) (w : str) :
  matches r w -> forall c s, w = c :: s -> matches (deriv c r) s.
Proof.
  induction 1 as [ | c0 | lo hi c0 Hlo Hhi | c0 Hc | r1 r2 s1 s2 H1 IH1 H2 IH2
                 | r1 r2 s0 H0 IH | r1 r2 s0 H0 IH | r0
                 | r0 s1 s2 H1 IH1 H2 IH2 ]; intros c s E; simpl.
  - discriminate.
  - injection E as <- <-. rewrite N.eqb_refl. constructor.
  - injection E as <- <-.
    apply N.leb_le in Hlo, Hhi. rewrite Hlo, Hhi. constructor.
  - injection E as <- <-.
    apply N.eqb_neq in Hc. rewrite Hc. constructor.
  - destruct s1 as [|d s1]; simpl in E.
    + apply nullable_matches in H1. rewrite H1. apply m_alt_r. now apply IH2.
    + injection E as -> <-.
      destruct (nullable r1); [apply m_alt_l|]; apply m_cat; auto.
  - apply m_alt_l. now apply IH.
  - apply m_alt_r. now apply IH.
  - discriminate.
  - destruct s1 as [|d s1]; simpl in E.
    + now apply IH2.
    + injection E as -> <-. apply m_cat; auto.
Qed.

Lemma fullmatch_matches (s : str) :
  forall r, fullmatch r s = true <-> matches r s.
Proof.
  induction s as [|c s IH]; intros r; simpl.
  - apply nullable_matches.
  - rewrite IH. split.
    + apply deriv_sound.
    + intros H. now apply (deriv_complete r (c :: s)).
Qed.

(** *** The words of the status-command pattern *)

Lemma matches_cat (r1 r2 : regex) (s : str) :
  matches (Cat r1 r2) s <->
  exists s1 s2, s = s1 ++ s2 /\ matches r1 s1 /\ matches r2 s2.
Proof.
  split.
  - intros H. inversion H; subst. eauto.
  - intros (s1 & s2 & -> & H1 & H2). now constructor.
Qed.

Lemma matches_text (t s : str) : matches (text t) s <-> s = t.
Proof.
  revert s. induction t as [|c t IH]; intros s; simpl.
  - split; intros H; [now inversion H | subst; constructor].
  - rewrite matches_cat. split.
    + intros (s1 & s2 & -> & H1 & H2). inversion H1; subst.
      apply IH in H2. now subst.
    + intros ->. exists [c], t. repeat split; [constructor | now apply IH].
Qed.

Lemma matches_range (lo hi : N) (s : str) :
  matches (Range lo hi) s <-> exists c, s = [c] /\ lo <= c /\ c <= hi.
Proof.
  split.
  - intros H. inversion H; subst. eauto.
  - intros (c & -> & H1 & H2). now constructor.
Qed.

Lemma matches_star_dot (s : str) : matches (Star Dot) s <-> ~ In 10 s.
Proof.
  split.
  - intros H. remember (Star Dot) as r eqn:R.
    induction H as [ | | | | | | | r0 | r0 s1 s2 H1 _ H2 IH2 ]; try discriminate R.
    + intros [].
    + injection R as ->. inversion H1; subst. simpl.
      intros [E|E]; [congruence | now apply IH2].
  - induction s as [|c s IH]; intros H.
    + constructor.
    + apply (m_star_cons Dot [c] s).
      * constructor. intros ->. apply H. now left.
      * apply IH. intros Hin. apply H. now right.
Qed.

Lemma status_command_pattern_shape (command : str) :
  fullmatch status_command_pattern command = true <-> status_shape command.
Proof.
  rewrite fullmatch_matches. unfold status_command_pattern, status_shape, lowercase.
  simpl times. split.
  - intros H.
    apply matches_cat in H as (s1 & s2 & -> & H1 & H).
    apply matches_text in H1 as ->.
    apply matches_cat in H as (s3 & trailer & -> & H & Ht).
    apply matches_cat in H as (sa & s4 & -> & Ha & H).
    apply matches_cat in H as (sb & s5 & -> & Hb & H).
    inversion H; subst.
    apply matches_range in Ha as (a & -> & Ha).
    apply matches_range in Hb as (b & -> & Hb).
    apply matches_star_dot in Ht.
    exists a, b, trailer. simpl. repeat split; tauto.
  - intros (a & b & trailer & -> & Ha & Hb & Ht).
    apply m_cat; [now apply matches_text|].
    apply (m_cat _ _ [a; b] trailer); [|now apply matches_star_dot].
    apply (m_cat _ _ [a] [b]); [now apply matches_range; eauto|].
    apply (m_cat _ _ [b] []); [now apply matches_range; eauto | constructor].
Qed.

(* ===================================================================== *)
(** ** Integer literals *)
(* ===================================================================== *)

Lemma int_base16_raises (D : N -> option N) (literal : str) (e : exn) :
  int_base16 D literal = Raise e -> e = ValueError literal.
Proof.
  unfold int_base16.
  destruct (skip_sign _) as [sign s1].
  destruct (starts_with_underscore _); [congruence|].
  destruct (scan_digits _ _ _) as [[z rest]|]; [|congruence].
  destruct (_ =? _)%nat; [congruence|].
  destruct (skip_c_space rest); congruence.
Qed.

Lemma hex_digit_range (c : N) :
  is_hex_digit c = true ->
  (48 <= c <= 57) \/ (97 <= c <= 102) \/ (65 <= c <= 70).
Proof.
  unfold is_hex_digit, digit_value.
  destruct ((48 <=? c) && (c <=? 57)) eqn:E1.
  { apply andb_true_iff in E1 as [A B]. apply N.leb_le in A, B. lia. }
  destruct ((97 <=? c) && (c <=? 122)) eqn:E2.
  { apply andb_true_iff in E2 as [A B]. apply N.leb_le in A, B.
    intros H. apply Z.ltb_lt in H. lia. }
  destruct ((65 <=? c) && (c <=? 90)) eqn:E3; [|discriminate].
  apply andb_true_iff in E3 as [A B]. apply N.leb_le in A, B.
  intros H. apply Z.ltb_lt in H. lia.
Qed.

Ltac hex_test H :=
  match goal with
  | |- (_ =? _) = false => apply N.eqb_neq; lia
  | |- (_ <? _) = true => apply N.ltb_lt; lia
  | |- (_ <=? _) = false => apply N.leb_gt; lia
  end.

Lemma scan_digits_hex (digits : str) :
  Forall (fun c => is_hex_digit c = true) digits ->
  forall acc,
    scan_digits false acc digits =
    Some (fold_left
            (fun acc c => (16 * acc + match digit_value c with Some d => d | None => 0 end)%Z)
            digits acc, []).
Proof.
  induction 1 as [|c digits Hc _ IH]; intros acc; simpl; [reflexivity|].
  pose proof (hex_digit_range c Hc) as R.
  replace (c =? 95) with false by (symmetry; hex_test R).
  unfold is_hex_digit in Hc.
  destruct (digit_value c) as [d|]; [|discriminate]. rewrite Hc. apply IH.
Qed.

Lemma int_base16_hex (D : N -> option N) (digits : str) :
  hex_digits digits -> int_base16 D digits = Return (hex_value digits).
Proof.
  intros [NE H].
  assert (T : transform_decimal_and_space D digits = digits).
  { clear NE. induction H as [|c digits Hc _ IH]; simpl; [reflexivity|].
    pose proof (hex_digit_range c Hc) as R.
    replace (c <? 128) with true by (symmetry; hex_test R). now rewrite IH. }
  destruct digits as [|c digits]; [now destruct NE|].
  inversion H as [|? ? Hc Hrest]; subst.
  pose proof (hex_digit_range c Hc) as R.
  unfold int_base16. rewrite T.
  assert (S0 : skip_c_space (c :: digits) = c :: digits).
  { simpl. unfold c_isspace.
    replace (c =? 32) with false by (symmetry; hex_test R).
    replace (c <=? 13) with false by (symmetry; hex_test R).
    now rewrite andb_false_r. }
  rewrite S0.
  assert (S1 : skip_sign (c :: digits) = (1%Z, c :: digits)).
  { simpl.
    replace (c =? 43) with false by (symmetry; hex_test R).
    replace (c =? 45) with false by (symmetry; hex_test R). reflexivity. }
  rewrite S1.
  assert (S2 : skip_base_prefix (c :: digits) = c :: digits).
  { destruct digits as [|x digits]; [reflexivity|]. simpl.
    inversion Hrest as [|? ? Hx _]; subst.
    pose proof (hex_digit_range x Hx) as Rx.
    replace (x =? 120) with false by (symmetry; hex_test Rx).
    replace (x =? 88) with false by (symmetry; hex_test Rx).
    now rewrite andb_false_r. }
  rewrite S2.
  replace (starts_with_underscore (c :: digits)) with false
    by (symmetry; simpl; hex_test R).
  rewrite (scan_digits_hex (c :: digits) H). simpl List.length.
  cbn [Nat.eqb skip_c_space]. unfold hex_value. f_equal. lia.
Qed.

(* ===================================================================== *)
(** ** Properties of [issue_action_command] *)
(* ===================================================================== *)

Lemma check_prefix_and_strip_app (expected_prefix rest : str) :
  check_prefix_and_strip (expected_prefix ++ rest) expected_prefix = Return (strip rest).
Proof.
  unfold check_prefix_and_strip. now rewrite startswith_app, slice_from_app.
Qed.

Section ActionCommandProperties.

Variable unicode_decimal : N -> option N.
Variable PlateShuttleSystemStatus : Type.
Variable from_hex_string : str -> outcome PlateShuttleSystemStatus.

Local Notation "'action'" :=
  (issue_action_command unicode_decimal PlateShuttleSystemStatus from_hex_string).

Lemma action_ok (command rest : str) (self self' : SerialPort) :
  communicate command self = (Return (lit "ok" ++ rest), self') ->
  action command self = (from_hex_string (strip rest), self').
Proof.
  intros C. unfold issue_action_command, bind. rewrite C.
  rewrite startswith_app. unfold lift. now rewrite check_prefix_and_strip_app.
Qed.

Lemma action_er (command rest : str) (self self' : SerialPort) :
  communicate command self = (Return (lit "er" ++ rest), self') ->
  action command self =
  (match int_base16 unicode_decimal (strip rest) with
   | Return error_code => Raise (SerialCommunicationError_from_error_code error_code)
   | Raise e => Raise e
   end, self').
Proof.
  intros C. unfold issue_action_command, bind. rewrite C.
  change (startswith (lit "er" ++ rest) (lit "ok")) with false. cbv iota.
  rewrite startswith_app. unfold lift, raise, from_error_code.
  rewrite check_prefix_and_strip_app.
  destruct (int_base16 unicode_decimal (strip rest)); reflexivity.
Qed.

Lemma action_other (command response : str) (self self' : SerialPort) :
  communicate command self = (Return response, self') ->
  startswith response (lit "ok") = false ->
  startswith response (lit "er") = false ->
  action command self = (Raise (UnexpectedResponse (action_message response)), self').
Proof.
  intros C O E. unfold issue_action_command, bind. rewrite C, O, E.
  reflexivity.
Qed.

(** X16. [issue_action_command] sorts the response of [communicate] three
    ways.  After [ok] it hands what follows the prefix, stripped, to the
    status parser and gives back what that yields, a status or the
    exception the parser raises.  After [er], when what follows the prefix,
    stripped, is an integer literal in base 16, it raises the Communication
    error carrying that integer; for a text of hexadecimal digits the
    integer is its hexadecimal value.  A response with neither prefix raises
    an Unexpected-Response error that quotes the response. *)
Theorem issue_action_command_classifies
    (command response : str) (self self' : SerialPort) :
  communicate command self = (Return response, self') ->
  (forall rest,
      response = lit "ok" ++ rest ->
      action command self = (from_hex_string (strip rest), self'))
  /\ (forall rest error_code,
         response = lit "er" ++ rest ->
         int_base16 unicode_decimal (strip rest) = Return error_code ->
         action command self =
         (Raise (SerialCommunicationError_from_error_code error_code), self'))
  /\ (forall rest,
         response = lit "er" ++ rest ->
         hex_digits (strip rest) ->
         action command self =
         (Raise (SerialCommunicationError_from_error_code (hex_value (strip rest))), self'))
  /\ ((forall rest, response <> lit "ok" ++ rest) ->
      (forall rest, response <> lit "er" ++ rest) ->
      action command self =
      (Raise (UnexpectedResponse
                (lit "Expected response like 'ok XX' or 'er XX', got '"
                 ++ response ++ lit "'")), self')).
Proof.
  intros C. split; [|split; [|split]].
  - intros rest ->. now apply action_ok.
  - intros rest code -> I. rewrite (action_er _ _ _ _ C). now rewrite I.
  - intros rest -> H. rewrite (action_er _ _ _ _ C).
    now rewrite (int_base16_hex unicode_decimal _ H).
  - intros O E. apply action_other; [assumption | |]; now apply startswith_false.
Qed.

(** C8. When the response of [communicate] starts with [er] and what
    follows, stripped, is not an integer literal in base 16,
    [issue_action_command] raises the [ValueError] of the integer parser,
    which is neither a Communication error nor an Unexpected-Response
    error. *)
Theorem issue_action_command_value_error
    (command rest : str) (self self' : SerialPort) :
  communicate command self = (Return (lit "er" ++ rest), self') ->
  (forall error_code, int_base16 unicode_decimal (strip rest) <> Return error_code) ->
  action command self = (Raise (ValueError (strip rest)), self')
  /\ is_communication_error (ValueError (strip rest)) = false
  /\ is_unexpected_response (ValueError (strip rest)) = false.
Proof.
  intros C I. rewrite (action_er _ _ _ _ C).
  destruct (int_base16 unicode_decimal (strip rest)) as [code|e] eqn:E.
  - now destruct (I code).
  - apply int_base16_raises in E. subst e. repeat split.
Qed.

End ActionCommandProperties.

Lemma issue_action_command_classifies_witness :
  let action := issue_action_command (fun _ => None) str (fun s => Return s) in
  fst (action (lit "ll:in") (answering "ok 05")) = Return (lit "05")
  /\ fst (action (lit "ll:in") (answering "er 1A")) =
     Raise (SerialCommunicationError_from_error_code 0x1A)
  /\ fst (action (lit "ll:in") (answering "xyz")) =
     Raise (UnexpectedResponse (lit "Expected response like 'ok XX' or 'er XX', got 'xyz'")).
Proof.
  intros action.
  pose (D := fun _ : N => @None N).
  pose (f := fun s : str => Return s).
  split; [|split].
  - assert (C : communicate (lit "ll:in") (answering "ok 05") =
                (Return (lit "ok 05"), snd (communicate (lit "ll:in") (answering "ok 05"))))
      by reflexivity.
    destruct (issue_action_command_classifies D str f _ _ _ _ C) as (K & _).
    exact (f_equal fst (K (lit " 05") eq_refl)).
  - assert (C : communicate (lit "ll:in") (answering "er 1A") =
                (Return (lit "er 1A"), snd (communicate (lit "ll:in") (answering "er 1A"))))
      by reflexivity.
    destruct (issue_action_command_classifies D str f _ _ _ _ C) as (_ & K & _).
    exact (f_equal fst (K (lit " 1A") 0x1A%Z eq_refl eq_refl)).
  - assert (C : communicate (lit "ll:in") (answering "xyz") =
                (Return (lit "xyz"), snd (communicate (lit "ll:in") (answering "xyz"))))
      by reflexivity.
    destruct (issue_action_command_classifies D str f _ _ _ _ C) as (_ & _ & _ & K).
    refine (f_equal fst (K _ _)); intros rest E; discriminate E.
Defined.

(** Not every response that starts with [er] ends in a Communication
    error: on [er zz] the exception is the [ValueError] of the integer
    parser. *)
Lemma issue_action_command_er_counterexample :
  ~ (forall (D : N -> option N) (S : Type) (f : str -> outcome S)
            (command response : str) (self self' : SerialPort),
        communicate command self = (Return response, self') ->
        startswith response (lit "er") = true ->
        exists e, fst (issue_action_command D S f command self) = Raise e
                  /\ is_communication_error e = true).
Proof.
  intros H.
  pose (self := idle_engine (ascii_bytes "er zz" ++ [CR])).
  destruct (H (fun _ => None) str (fun s => Return s) (lit "ll:in") (lit "er zz")
              self (snd (communicate (lit "ll:in") self)) eq_refl eq_refl)
    as (e & E & K).
  vm_compute in E. injection E as <-. discriminate K.
Qed.

(** C2. The code at the device answer [er zz], whatever the status parser
    and the Unicode table: [communicate] returns [er zz], which starts with
    [er], and [issue_action_command] raises the [ValueError] of the integer
    parser on [zz].  That exception is neither the Communication error nor
    the Unexpected-Response error, the only two that the docstring of
    [issue_action_command] lists under Raises. *)
Theorem issue_action_command_er_zz
    (unicode_decimal : N -> option N) (PlateShuttleSystemStatus : Type)
    (from_hex_string : str -> outcome PlateShuttleSystemStatus) :
  let self := answering "er zz" in
  let self' :=
    after_exchange self (ascii_bytes "ll:in" ++ [CR]) (ascii_bytes "er zz" ++ [CR]) [] in
  communicate (lit "ll:in") self = (Return (lit "er zz"), self')
  /\ startswith (lit "er zz") (lit "er") = true
  /\ issue_action_command unicode_decimal PlateShuttleSystemStatus from_hex_string
       (lit "ll:in") self =
     (Raise (ValueError (lit "zz")), self')
  /\ is_communication_error (ValueError (lit "zz")) = false
  /\ is_unexpected_response (ValueError (lit "zz")) = false.
Proof.
  intros self self'.
  assert (C : communicate (lit "ll:in") self = (Return (lit "er" ++ lit " zz"), self'))
    by reflexivity.
  split; [exact C|]. split; [reflexivity|]. split; [|split; reflexivity].
  rewrite (action_er unicode_decimal PlateShuttleSystemStatus from_hex_string
             (lit "ll:in") (lit " zz") self self' C).
  reflexivity.
Qed.

Lemma issue_action_command_value_error_witness :
  let self := idle_engine (ascii_bytes "er zz" ++ [CR]) in
  fst (communicate (lit "ll:in") self) = Return (lit "er zz")
  /\ fst (issue_action_command (fun _ => None) str (fun s => Return s) (lit "ll:in") self) =
     Raise (ValueError (lit "zz")).
Proof.
  intros self. split; [reflexivity|].
  assert (C : communicate (lit "ll:in") self =
              (Return (lit "er" ++ lit " zz"), snd (communicate (lit "ll:in") self)))
    by reflexivity.
  destruct (issue_action_command_value_error (fun _ => None) str (fun s => Return s)
              _ _ _ _ C) as (K & _).
  - intros code E. discriminate E.
  - exact (f_equal fst K).
Defined.

(* ===================================================================== *)
(** ** Properties of [issue_status_command] *)
(* ===================================================================== *)

(** C5, as the code has it.  A command that is not [ch:], two lowercase
    letters and a trailer free of line feeds is refused with an
    Invalid-Command error and the engine is left as it was: no transfer is
    made on the channel.  A command of that shape is passed to
    [communicate], and the response is checked against, and stripped of, the
    two letters at positions 3 and 4 of the command. *)
Theorem issue_status_command_spec (command : str) (self : SerialPort) :
  (~ status_shape command ->
   issue_status_command command self =
   (Raise (InvalidCommand
             (lit "Expected command like 'ch:xx' or 'ch:xx ...', got '"
              ++ command ++ lit "'")), self))
  /\ (forall a b trailer,
         command = lit "ch:" ++ [a; b] ++ trailer ->
         lowercase a -> lowercase b -> ~ In 10 trailer ->
         issue_status_command command self =
         match communicate command self with
         | (Return response, self') => (check_prefix_and_strip response [a; b], self')
         | (Raise e, self') => (Raise e, self')
         end).
Proof.
  split.
  - intros H. unfold issue_status_command.
    destruct (fullmatch status_command_pattern command) eqn:E.
    + destruct H. now apply status_command_pattern_shape.
    + reflexivity.
  - intros a b trailer -> Ha Hb Ht. unfold issue_status_command.
    replace (fullmatch status_command_pattern (lit "ch:" ++ [a; b] ++ trailer)) with true.
    + reflexivity.
    + symmetry. apply status_command_pattern_shape. exists a, b, trailer. tauto.
Qed.

Lemma issue_status_command_spec_witness :
  issue_status_command (lit "ch:bs") (answering "bs 01") =
  (Return (lit "01"), snd (communicate (lit "ch:bs") (answering "bs 01")))
  /\ issue_status_command (lit "chbs") (answering "bs 01") =
     (Raise (InvalidCommand (lit "Expected command like 'ch:xx' or 'ch:xx ...', got 'chbs'")),
      answering "bs 01").
Proof.
  split.
  - refine (eq_trans
              (proj2 (issue_status_command_spec (lit "ch:bs") (answering "bs 01"))
                 98 115 [] eq_refl _ _ _) eq_refl).
    + split; discriminate.
    + split; discriminate.
    + intros [].
  - refine (proj1 (issue_status_command_spec (lit "chbs") (answering "bs 01")) _).
    intros (a & b & trailer & E & _). discriminate E.
Defined.

(** The command [ch:bs] followed by a line feed has the shape that C5
    states, yet it is refused and [communicate] is not called. *)
Lemma issue_status_command_line_feed_counterexample :
  let command := lit "ch:bs" ++ [10] in
  let self := answering "bs 01" in
  status_shape_spec command
  /\ issue_status_command command self =
     (Raise (InvalidCommand (command_message command)), self)
  /\ (response <- communicate command ;;
      lift (check_prefix_and_strip response (slice command 3 5)))%engine self
     = (Return (lit "01"), snd (communicate command self))
  /\ transfers (port (snd (issue_status_command command self))) = [].
Proof.
  intros command self. split; [|split; [|split]]; try reflexivity.
  exists 98, 115, [10]. repeat split; discriminate.
Qed.

(* ===================================================================== *)
(** ** Every path through [communicate] *)
(* ===================================================================== *)

Lemma decode_from_fails (pos : nat) (object b : bytes) :
  ~ is_ascii (List.map Byte.to_N b) ->
  exists k, decode_from pos object b = Raise (UnicodeDecodeError object (pos + k))
            /\ (k < List.length b)%nat
            /\ is_ascii (List.map Byte.to_N (firstn k b))
            /\ 128 <= Byte.to_N (nth k b x00).
Proof.
  revert pos. induction b as [|x b IH]; intros pos H.
  - destruct H. constructor.
  - simpl. destruct (Byte.to_N x <? 128) eqn:Hx.
    + apply N.ltb_lt in Hx.
      assert (Hb : ~ is_ascii (List.map Byte.to_N b))
        by (intro Hb; apply H; now constructor).
      destruct (IH (S pos) Hb) as (k & E & Hk & Hpre & Hnth).
      exists (S k). rewrite E. simpl.
      split; [do 2 f_equal; lia|].
      split; [lia|]. split; [now constructor | assumption].
    + apply N.ltb_ge in Hx. exists 0%nat. simpl. rewrite Nat.add_0_r.
      split; [reflexivity|]. split; [lia|]. split; [constructor | assumption].
Qed.

Lemma encoding_of_bytes (b : bytes) :
  is_ascii (List.map Byte.to_N b) -> encoding_of (List.map Byte.to_N b) = b.
Proof.
  intros H. unfold encoding_of, encode_ascii. now rewrite encode_from_ascii.
Qed.

Lemma is_ascii_dec (s : str) : is_ascii s \/ ~ is_ascii s.
Proof.
  induction s as [|c s [IH|IH]].
  - left. constructor.
  - destruct (N.lt_ge_cases c 128) as [H|H].
    + left. now constructor.
    + right. intros A. inversion A; subst. lia.
  - right. intros A. inversion A; subst. contradiction.
Qed.

(** The six ways a call of [communicate] can go, each with the state it
    leaves. *)
Lemma communicate_cases (command : str) (self : SerialPort) :
  let frame := encoding_of command ++ [CR] in
  (lock self = true
   /\ communicate command self = (Raise (TimeoutError LockNotAcquired), self))
  \/ (lock self = false /\ in_waiting (port self) <> 0%nat
      /\ communicate command self = (Raise (SerialCommunicationError stale_message), self))
  \/ (lock self = false /\ in_waiting (port self) = 0%nat /\ ~ is_ascii command
      /\ exists pos,
           communicate command self = (Raise (UnicodeEncodeError command pos), self))
  \/ (lock self = false /\ in_waiting (port self) = 0%nat /\ is_ascii command
      /\ peer (port self) frame = None
      /\ communicate command self = (Raise SerialTimeoutException, self))
  \/ (lock self = false /\ in_waiting (port self) = 0%nat /\ is_ascii command
      /\ exists reply,
           peer (port self) frame = Some reply /\ ~ In CR reply
           /\ communicate command self =
              (Raise (TimeoutError (ReadTimedOut (timeout_message command [] reply))),
               timed_out self frame reply))
  \/ (lock self = false /\ in_waiting (port self) = 0%nat /\ is_ascii command
      /\ exists head tail,
           peer (port self) frame = Some (head ++ CR :: tail) /\ ~ In CR head
           /\ communicate command self =
              (decode_ascii head, after_exchange self frame (head ++ [CR]) tail)).
Proof.
  intros frame. unfold frame.
  destruct (lock self) eqn:L.
  { left. split; [reflexivity|]. now apply communicate_locked. }
  right.
  destruct (Nat.eq_dec (in_waiting (port self)) 0) as [W|W].
  2:{ left. split; [reflexivity|]. split; [assumption|]. now apply communicate_stale. }
  right.
  destruct (is_ascii_dec command) as [A|A].
  2:{ left. split; [reflexivity|]. split; [assumption|]. split; [assumption|].
      destruct (encode_from_fails 0 command command A) as (pos & E & _).
      exists pos. now apply communicate_unencodable. }
  right.
  destruct (encoding_of_ascii command A) as [E _].
  destruct (peer (port self) (encoding_of command ++ [CR])) as [reply|] eqn:P.
  2:{ left. repeat (split; [first [reflexivity | assumption]|]).
      now apply (communicate_write_refused command (encoding_of command)). }
  right.
  destruct (split_at_CR reply) as [H | (head & tail & -> & H)].
  - left. repeat (split; [first [reflexivity | assumption]|]).
    exists reply. split; [reflexivity|]. split; [assumption|].
    now apply communicate_silent.
  - right. repeat (split; [first [reflexivity | assumption]|]).
    exists head, tail. split; [reflexivity|]. split; [assumption|].
    now apply communicate_answered.
Qed.

Lemma communicate_response_ascii (command response : str) (self self' : SerialPort) :
  communicate command self = (Return response, self') ->
  is_ascii response /\ ~ In 13 response.
Proof.
  intros C.
  destruct (communicate_cases command self)
    as [(_ & E) | [(_ & _ & E) | [(_ & _ & _ & pos & E) | [(_ & _ & _ & _ & E)
       | [(_ & _ & _ & reply & _ & _ & E) | (_ & _ & _ & head & tail & _ & H & E)]]]]];
    rewrite E in C; try discriminate C.
  injection C as D _. apply decode_from_inv in D as [-> A].
  split; [assumption | now apply CR_not_in_decoded].
Qed.

(** X1. A response that [communicate] returns is ASCII, and encoding it
    again as ASCII gives exactly the bytes that were read before the
    carriage return that ended the exchange. *)
Theorem communicate_response_reencodes
    (command response : str) (self self' : SerialPort) :
  communicate command self = (Return response, self') ->
  is_ascii response
  /\ encode_ascii response = Return (encoding_of response)
  /\ consumed (transfers (port self')) =
     consumed (transfers (port self)) ++ encoding_of response ++ [CR].
Proof.
  intros C.
  destruct (communicate_response_ascii command response self self' C) as [A _].
  split; [assumption|]. split; [now apply encoding_of_ascii|].
  destruct (communicate_cases command self)
    as [(_ & E) | [(_ & _ & E) | [(_ & _ & _ & pos & E) | [(_ & _ & _ & _ & E)
       | [(_ & _ & _ & reply & _ & _ & E) | (_ & _ & _ & head & tail & _ & H & E)]]]]];
    rewrite E in C; try discriminate C.
  injection C as D <-. apply decode_from_inv in D as [-> A'].
  rewrite encoding_of_bytes by assumption.
  cbn [after_exchange port transfers]. rewrite consumed_app. cbn [consumed].
  now rewrite consumed_one_by_one.
Qed.

Lemma communicate_response_reencodes_witness :
  let self := idle_engine (ascii_bytes "bs 01" ++ [CR] ++ ascii_bytes "ok 00" ++ [CR]) in
  let self' := snd (communicate (lit "ch:bs") self) in
  is_ascii (lit "bs 01")
  /\ encode_ascii (lit "bs 01") = Return (encoding_of (lit "bs 01"))
  /\ consumed (transfers (port self')) =
     consumed (transfers (port self)) ++ encoding_of (lit "bs 01") ++ [CR].
Proof.
  intros self self'.
  apply (communicate_response_reencodes (lit "ch:bs") (lit "bs 01") self self').
  reflexivity.
Defined.


(** X3. When the bytes before the first carriage return of the answer hold
    a byte above 127, [communicate] raises [UnicodeDecodeError] at the
    first such byte.  The exchange itself is over by then: the frame has
    been read up to its carriage return and the lock is free. *)
Theorem communicate_rejects_non_ascii_response
    (command : str) (head tail : bytes) (self : SerialPort) :
  is_ascii command ->
  lock self = false ->
  in_waiting (port self) = 0%nat ->
  peer (port self) (encoding_of command ++ [CR]) = Some (head ++ CR :: tail) ->
  ~ In CR head ->
  ~ is_ascii (List.map Byte.to_N head) ->
  exists pos,
    communicate command self =
    (Raise (UnicodeDecodeError head pos),
     after_exchange self (encoding_of command ++ [CR]) (head ++ [CR]) tail)
    /\ is_ascii (List.map Byte.to_N (firstn pos head))
    /\ 128 <= Byte.to_N (nth pos head x00).
Proof.
  intros A L W P H N. destruct (encoding_of_ascii command A) as [E _].
  destruct (decode_from_fails 0 head head N) as (pos & D & _ & Hpre & Hnth).
  exists pos. split; [|split; assumption].
  rewrite (communicate_answered command _ head tail self L W E P H).
  unfold decode_ascii. now rewrite D.
Qed.

Lemma communicate_rejects_non_ascii_response_witness :
  let self := idle_engine [x6f; x6b; xe9; CR; x30] in
  exists pos,
    communicate (lit "ll:in") self =
    (Raise (UnicodeDecodeError [x6f; x6b; xe9] pos),
     after_exchange self (encoding_of (lit "ll:in") ++ [CR]) ([x6f; x6b; xe9] ++ [CR]) [x30])
    /\ is_ascii (List.map Byte.to_N (firstn pos [x6f; x6b; xe9]))
    /\ 128 <= Byte.to_N (nth pos [x6f; x6b; xe9] x00).
Proof.
  intros self.
  assert (A : is_ascii (lit "ll:in")) by (repeat constructor).
  apply (communicate_rejects_non_ascii_response (lit "ll:in") [x6f; x6b; xe9] [x30]
           self A eq_refl eq_refl eq_refl).
  - simpl. intuition discriminate.
  - intros N. inversion N as [|? ? _ N1]. inversion N1 as [|? ? _ N2].
    inversion N2 as [|? ? N3 _]. discriminate N3.
Defined.

(* ===================================================================== *)
(** ** Exchanges with an echoing device, and exchanges in a row *)
(* ===================================================================== *)

Lemma CR_not_in_encoded (encoded : bytes) :
  ~ In 13 (List.map Byte.to_N encoded) -> ~ In CR encoded.
Proof.
  intros H Hin. apply H. change 13 with (Byte.to_N CR). now apply in_map.
Qed.

Lemma is_ascii_app (s1 s2 : str) : is_ascii (s1 ++ s2) <-> is_ascii s1 /\ is_ascii s2.
Proof. apply Forall_app. Qed.

Lemma encoding_of_app_CR (pre post : str) :
  is_ascii pre -> is_ascii post ->
  encoding_of (pre ++ 13 :: post) = encoding_of pre ++ CR :: encoding_of post.
Proof.
  intros A1 A2.
  destruct (encoding_of_ascii pre A1) as [_ M1].
  destruct (encoding_of_ascii post A2) as [_ M2].
  rewrite <- (encoding_of_bytes (encoding_of pre ++ CR :: encoding_of post)).
  - rewrite map_app. simpl. now rewrite M1, M2.
  - rewrite map_app. simpl. rewrite M1, M2. apply is_ascii_app.
    split; [assumption|]. constructor; [reflexivity | assumption].
Qed.

(** X4. A device that sends the frame back unchanged: for an ASCII command
    without a carriage return, [communicate] returns the command itself and
    leaves the input buffer empty. *)
Theorem communicate_echo (command : str) (self : SerialPort) :
  is_ascii command ->
  ~ In 13 command ->
  lock self = false ->
  in_waiting (port self) = 0%nat ->
  peer (port self) (encoding_of command ++ [CR]) = Some (encoding_of command ++ [CR]) ->
  communicate command self =
  (Return command,
   after_exchange self (encoding_of command ++ [CR]) (encoding_of command ++ [CR]) []).
Proof.
  intros A H L W P. destruct (encoding_of_ascii command A) as [E M].
  rewrite (communicate_answered command _ (encoding_of command) [] self L W E P).
  - unfold decode_ascii. rewrite decode_from_ascii by now rewrite M.
    now rewrite M.
  - apply CR_not_in_encoded. now rewrite M.
Qed.

Lemma communicate_echo_witness :
  communicate (lit "ch:bs") echo_engine =
  (Return (lit "ch:bs"),
   after_exchange echo_engine (encoding_of (lit "ch:bs") ++ [CR])
     (encoding_of (lit "ch:bs") ++ [CR]) []).
Proof.
  apply communicate_echo; try reflexivity.
  - repeat constructor.
  - simpl. intuition discriminate.
Defined.

(** X5. The same device and a command with a carriage return inside:
    [communicate] returns only what stands before the first carriage return
    of the command; the rest of the echo stays in the input buffer, and the
    next call raises the unread-bytes error. *)
Theorem communicate_echo_embedded_terminator
    (pre post : str) (self : SerialPort) :
  let command := pre ++ 13 :: post in
  let frame := encoding_of command ++ [CR] in
  let self' := after_exchange self frame (encoding_of pre ++ [CR]) (encoding_of post ++ [CR]) in
  is_ascii command ->
  ~ In 13 pre ->
  lock self = false ->
  in_waiting (port self) = 0%nat ->
  peer (port self) frame = Some frame ->
  communicate command self = (Return pre, self')
  /\ forall next,
       communicate next self' = (Raise (SerialCommunicationError stale_message), self').
Proof.
  intros command frame self' A H L W P.
  apply is_ascii_app in A as [A1 A2]. inversion A2 as [|? ? _ A3]; subst.
  assert (A : is_ascii command)
    by (apply is_ascii_app; split; [assumption | now constructor]).
  destruct (encoding_of_ascii command A) as [E _].
  destruct (encoding_of_ascii pre A1) as [_ M1].
  assert (F : frame = encoding_of pre ++ CR :: (encoding_of post ++ [CR])).
  { unfold frame, command. rewrite encoding_of_app_CR by assumption.
    now rewrite <- app_assoc. }
  split.
  - rewrite (communicate_answered command _ (encoding_of pre)
               (encoding_of post ++ [CR]) self L W E).
    + unfold decode_ascii. rewrite decode_from_ascii by now rewrite M1.
      now rewrite M1.
    + fold frame. now rewrite P, F.
    + apply CR_not_in_encoded. now rewrite M1.
  - intros next. apply communicate_stale; [reflexivity|].
    unfold self', after_exchange, in_waiting. cbn [port in_buffer].
    rewrite length_app. simpl. lia.
Qed.

Lemma communicate_echo_embedded_terminator_witness :
  let command := lit "ch:bs" ++ 13 :: lit "ll:in" in
  let self' :=
    after_exchange echo_engine (encoding_of command ++ [CR])
      (encoding_of (lit "ch:bs") ++ [CR]) (encoding_of (lit "ll:in") ++ [CR]) in
  communicate command echo_engine = (Return (lit "ch:bs"), self')
  /\ forall next,
       communicate next self' = (Raise (SerialCommunicationError stale_message), self').
Proof.
  apply (communicate_echo_embedded_terminator (lit "ch:bs") (lit "ll:in") echo_engine);
    try reflexivity.
  - repeat constructor.
  - simpl. intuition discriminate.
Defined.

(** X6. Two clean exchanges in a row.  When the device answers each of two
    ASCII commands with one frame and nothing more, the second call of
    [communicate] finds the engine idle again: both responses come back,
    the two frames are the only data written, in order, and the input
    buffer is empty and the lock free at the end. *)
Theorem communicate_twice_clean
    (first second : str) (head1 head2 : bytes) (self : SerialPort) :
  let frame1 := encoding_of first ++ [CR] in
  let frame2 := encoding_of second ++ [CR] in
  let self2 :=
    after_exchange (after_exchange self frame1 (head1 ++ [CR]) [])
      frame2 (head2 ++ [CR]) [] in
  is_ascii first -> is_ascii second ->
  lock self = false ->
  in_waiting (port self) = 0%nat ->
  peer (port self) frame1 = Some (head1 ++ [CR]) ->
  peer (port self) frame2 = Some (head2 ++ [CR]) ->
  ~ In CR head1 -> ~ In CR head2 ->
  is_ascii (List.map Byte.to_N head1) ->
  is_ascii (List.map Byte.to_N head2) ->
  communicate_twice first second self =
  (Return (List.map Byte.to_N head1, List.map Byte.to_N head2), self2)
  /\ written (transfers (port self2)) = written (transfers (port self)) ++ [frame1; frame2]
  /\ in_buffer (port self2) = []
  /\ lock self2 = false.
Proof.
  intros frame1 frame2 self2 A1 A2 L W P1 P2 H1 H2 D1 D2.
  subst frame1 frame2 self2.
  destruct (encoding_of_ascii first A1) as [E1 _].
  destruct (encoding_of_ascii second A2) as [E2 _].
  split; [|split; [|split; reflexivity]].
  - unfold communicate_twice, bind.
    rewrite (communicate_answered first _ head1 [] self L W E1 P1 H1).
    unfold decode_ascii at 1. rewrite decode_from_ascii by assumption.
    cbv beta iota.
    rewrite (communicate_answered second _ head2 []
               (after_exchange self (encoding_of first ++ [CR]) (head1 ++ [CR]) [])
               eq_refl eq_refl E2 P2 H2).
    unfold decode_ascii. rewrite decode_from_ascii by assumption.
    reflexivity.
  - unfold after_exchange. cbn [port transfers].
    rewrite !written_app. cbn [written]. rewrite !written_one_by_one.
    rewrite <- app_assoc. reflexivity.
Qed.

Lemma communicate_twice_clean_witness :
  let self :=
    {| port :=
         {| in_buffer := [];
            peer := fun frame =>
                      if bytes_eqb frame (ascii_bytes "ll:in" ++ [CR])
                      then Some (ascii_bytes "ok 00" ++ [CR])
                      else Some (ascii_bytes "bs 01" ++ [CR]);
            transfers := [] |};
       lock := false |} in
  fst (communicate_twice (lit "ll:in") (lit "ch:bs") self) =
  Return (lit "ok 00", lit "bs 01")
  /\ written (transfers (port (snd (communicate_twice (lit "ll:in") (lit "ch:bs") self)))) =
     [ascii_bytes "ll:in" ++ [CR]; ascii_bytes "ch:bs" ++ [CR]].
Proof.
  intros self.
  assert (A1 : is_ascii (lit "ll:in")) by (repeat constructor).
  assert (A2 : is_ascii (lit "ch:bs")) by (repeat constructor).
  destruct (communicate_twice_clean (lit "ll:in") (lit "ch:bs")
              (ascii_bytes "ok 00") (ascii_bytes "bs 01") self
              A1 A2 eq_refl eq_refl eq_refl eq_refl) as (C & Wr & _).
  - simpl. intuition discriminate.
  - simpl. intuition discriminate.
  - repeat constructor.
  - repeat constructor.
  - rewrite C. split; [reflexivity | exact Wr].
Defined.

(* ===================================================================== *)
(** ** The entry points against a device that answers in ASCII text *)
(* ===================================================================== *)

(** [communicate] when the answer is the ASCII text [response], a carriage
    return and possibly more. *)
Lemma communicate_text (command response : str) (tail : bytes) (self : SerialPort) :
  is_ascii command -> is_ascii response -> ~ In 13 response ->
  lock self = false -> in_waiting (port self) = 0%nat ->
  peer (port self) (encoding_of command ++ [CR]) = Some (encoding_of response ++ CR :: tail) ->
  communicate command self =
  (Return response,
   after_exchange self (encoding_of command ++ [CR]) (encoding_of response ++ [CR]) tail).
Proof.
  intros A R H L W P.
  destruct (encoding_of_ascii command A) as [E _].
  destruct (encoding_of_ascii response R) as [_ M].
  rewrite (communicate_answered command _ (encoding_of response) tail self L W E P).
  - unfold decode_ascii. rewrite decode_from_ascii by now rewrite M.
    now rewrite M.
  - apply CR_not_in_encoded. now rewrite M.
Qed.

Lemma status_command_ascii (a b : N) (trailer : str) :
  lowercase a -> lowercase b -> is_ascii trailer ->
  is_ascii (lit "ch:" ++ [a; b] ++ trailer).
Proof.
  intros [_ Ha] [_ Hb] T. repeat constructor; try assumption; lia.
Qed.

Lemma status_command_accepted (a b : N) (trailer : str) :
  lowercase a -> lowercase b -> ~ In 10 trailer ->
  fullmatch status_command_pattern (lit "ch:" ++ [a; b] ++ trailer) = true.
Proof.
  intros Ha Hb T. apply status_command_pattern_shape. exists a, b, trailer. tauto.
Qed.

(** X7. A status query end to end.  The command is [ch:], two lowercase
    letters and an ASCII trailer without line feed; the device answers with
    the same two letters, a payload and a carriage return.  Then
    [issue_status_command] returns the payload without the white space
    around it, after one write and the reads of one frame. *)
Theorem issue_status_command_round_trip
    (a b : N) (trailer payload : str) (tail : bytes) (self : SerialPort) :
  let command := lit "ch:" ++ [a; b] ++ trailer in
  let frame := encoding_of command ++ [CR] in
  lowercase a -> lowercase b ->
  is_ascii trailer -> ~ In 10 trailer ->
  is_ascii payload -> ~ In 13 payload ->
  lock self = false ->
  in_waiting (port self) = 0%nat ->
  peer (port self) frame = Some (encoding_of ([a; b] ++ payload) ++ CR :: tail) ->
  issue_status_command command self =
  (Return (strip payload),
   after_exchange self frame (encoding_of ([a; b] ++ payload) ++ [CR]) tail).
Proof.
  intros command frame Ha Hb T NL Pa NC L W P. subst command frame.
  unfold issue_status_command. rewrite status_command_accepted by assumption.
  cbn [negb]. unfold bind.
  rewrite (communicate_text _ ([a; b] ++ payload) tail self); try assumption.
  - unfold lift. change (slice (lit "ch:" ++ [a; b] ++ trailer) 3 5) with [a; b].
    now rewrite check_prefix_and_strip_app.
  - now apply status_command_ascii.
  - destruct Ha as [_ Ha], Hb as [_ Hb].
    constructor; [lia|]. constructor; [lia | assumption].
  - destruct Ha as [Ha _], Hb as [Hb _].
    intros [E|[E|E]]; [lia | lia | now apply NC].
Qed.

Lemma issue_status_command_round_trip_witness :
  issue_status_command (lit "ch:bs") (answering "bs  01 ") =
  (Return (lit "01"),
   after_exchange (answering "bs  01 ") (encoding_of (lit "ch:bs") ++ [CR])
     (encoding_of (lit "bs  01 ") ++ [CR]) []).
Proof.
  refine (eq_trans
            (issue_status_command_round_trip 98 115 [] (lit "  01 ") []
               (answering "bs  01 ") _ _ _ _ _ _ eq_refl eq_refl eq_refl) eq_refl).
  - split; discriminate.
  - split; discriminate.
  - constructor.
  - intros [].
  - repeat constructor.
  - simpl. intuition discriminate.
Defined.

(** X8. A status query answered with anything that does not start with the
    two letters of the command (an [er] answer, an empty answer, another
    channel) ends in an Unexpected-Response error that quotes the two
    letters and the answer.  The frame has been read all the same, so the
    engine is ready for the next exchange. *)
Theorem issue_status_command_wrong_prefix
    (a b : N) (trailer response : str) (tail : bytes) (self : SerialPort) :
  let command := lit "ch:" ++ [a; b] ++ trailer in
  let frame := encoding_of command ++ [CR] in
  lowercase a -> lowercase b ->
  is_ascii trailer -> ~ In 10 trailer ->
  is_ascii response -> ~ In 13 response ->
  (forall rest, response <> [a; b] ++ rest) ->
  lock self = false ->
  in_waiting (port self) = 0%nat ->
  peer (port self) frame = Some (encoding_of response ++ CR :: tail) ->
  issue_status_command command self =
  (Raise (UnexpectedResponse
            (lit "Expected response prefix '" ++ [a; b]
             ++ lit "', got response '" ++ response ++ lit "'")),
   after_exchange self frame (encoding_of response ++ [CR]) tail).
Proof.
  intros command frame Ha Hb T NL R NC NP L W P. subst command frame.
  unfold issue_status_command. rewrite status_command_accepted by assumption.
  cbn [negb]. unfold bind.
  rewrite (communicate_text _ response tail self); try assumption.
  - unfold lift. change (slice (lit "ch:" ++ [a; b] ++ trailer) 3 5) with [a; b].
    unfold check_prefix_and_strip. now rewrite (startswith_false _ _ NP).
  - now apply status_command_ascii.
Qed.

Lemma issue_status_command_wrong_prefix_witness :
  fst (issue_status_command (lit "ch:bs") (answering "er 01")) =
  Raise (UnexpectedResponse (lit "Expected response prefix 'bs', got response 'er 01'"))
  /\ fst (issue_status_command (lit "ch:bs") (answering "")) =
     Raise (UnexpectedResponse (lit "Expected response prefix 'bs', got response ''")).
Proof.
  split.
  - refine (f_equal fst
              (issue_status_command_wrong_prefix 98 115 [] (lit "er 01") []
                 (answering "er 01") _ _ _ _ _ _ _ eq_refl eq_refl eq_refl)).
    + split; discriminate.
    + split; discriminate.
    + constructor.
    + intros [].
    + repeat constructor.
    + simpl. intuition discriminate.
    + intros rest E. discriminate E.
  - refine (f_equal fst
              (issue_status_command_wrong_prefix 98 115 [] [] []
                 (answering "") _ _ _ _ _ _ _ eq_refl eq_refl eq_refl)).
    + split; discriminate.
    + split; discriminate.
    + constructor.
    + intros [].
    + constructor.
    + intros [].
    + intros rest E. discriminate E.
Defined.

(** X9. A command shorter than five characters never reaches the channel:
    [issue_status_command] refuses it with an Invalid-Command error, so the
    slice [command[3:5]] is only ever taken of a command that has both
    characters. *)
Theorem issue_status_command_short_command (command : str) (self : SerialPort) :
  (List.length command < 5)%nat ->
  issue_status_command command self =
  (Raise (InvalidCommand (command_message command)), self).
Proof.
  intros H. unfold issue_status_command.
  destruct (fullmatch status_command_pattern command) eqn:E; [|reflexivity].
  apply status_command_pattern_shape in E as (a & b & trailer & -> & _).
  rewrite !length_app in H. simpl in H. lia.
Qed.

Lemma issue_status_command_short_command_witness :
  issue_status_command (lit "ch:b") (answering "bs 01") =
  (Raise (InvalidCommand (command_message (lit "ch:b"))), answering "bs 01")
  /\ issue_status_command [] (answering "bs 01") =
     (Raise (InvalidCommand (command_message [])), answering "bs 01").
Proof.
  split; apply issue_status_command_short_command; simpl; lia.
Defined.

(* ===================================================================== *)
(** ** More on the prefix check and on error codes *)
(* ===================================================================== *)

Lemma strip_idempotent (s : str) : strip (strip s) = strip s.
Proof.
  destruct (strip_split s) as (l & r & _ & _ & _ & T).
  rewrite <- (strip_spec [] (strip s) []) at 2; [|constructor|constructor|exact T].
  now rewrite app_nil_r.
Qed.

Lemma strip_length (s : str) : (List.length (strip s) <= List.length s)%nat.
Proof.
  destruct (strip_split s) as (l & r & E & _).
  rewrite E at 2. rewrite !length_app. lia.
Qed.

(** X11. The payload that [check_prefix_and_strip] returns is final: it is
    no longer than what follows the prefix in the response, and checking it
    again against the empty prefix gives it back unchanged. *)
Theorem check_prefix_and_strip_payload_stable (response expected_prefix payload : str) :
  check_prefix_and_strip response expected_prefix = Return payload ->
  check_prefix_and_strip payload [] = Return payload
  /\ (List.length expected_prefix + List.length payload <= List.length response)%nat.
Proof.
  unfold check_prefix_and_strip.
  destruct (startswith response expected_prefix) eqn:S; [|discriminate].
  intros H. injection H as <-.
  apply startswith_inv in S as [rest ->]. rewrite slice_from_app.
  split.
  - cbn [startswith List.length slice_from skipn]. now rewrite strip_idempotent.
  - rewrite length_app. pose proof (strip_length rest). lia.
Qed.

Lemma check_prefix_and_strip_payload_stable_witness :
  check_prefix_and_strip (lit "01") [] = Return (lit "01")
  /\ (List.length (lit "bs") + List.length (lit "01") <= List.length (lit "bs  01 "))%nat.
Proof.
  apply (check_prefix_and_strip_payload_stable (lit "bs  01 ") (lit "bs") (lit "01")).
  reflexivity.
Defined.

Lemma hex_fold_bound (digits : str) :
  Forall (fun c => is_hex_digit c = true) digits ->
  forall acc : Z,
    (0 <= acc)%Z ->
    (0 <= fold_left
            (fun acc c => 16 * acc + match digit_value c with Some d => d | None => 0 end)
            digits acc
     < (acc + 1) * 16 ^ Z.of_nat (List.length digits))%Z.
Proof.
  induction 1 as [|c digits Hc _ IH]; intros acc Hacc.
  - simpl. lia.
  - cbn [fold_left List.length]. rewrite Nat2Z.inj_succ, Z.pow_succ_r by lia.
    pose proof (hex_digit_range c Hc) as R.
    unfold is_hex_digit in Hc.
    assert (D : exists d, digit_value c = Some d /\ (0 <= d < 16)%Z).
    { destruct (digit_value c) as [d|] eqn:E; [|discriminate].
      exists d. split; [reflexivity|]. apply Z.ltb_lt in Hc.
      unfold digit_value in E.
      destruct ((48 <=? c) && (c <=? 57)) eqn:E1.
      { apply andb_true_iff in E1 as [A B]. apply N.leb_le in A, B.
        injection E as <-. lia. }
      destruct ((97 <=? c) && (c <=? 122)) eqn:E2.
      { apply andb_true_iff in E2 as [A B]. apply N.leb_le in A, B.
        injection E as <-. lia. }
      destruct ((65 <=? c) && (c <=? 90)) eqn:E3; [|discriminate].
      apply andb_true_iff in E3 as [A B]. apply N.leb_le in A, B.
      injection E as <-. lia. }
    destruct D as (d & -> & Hd).
    specialize (IH (16 * acc + d)%Z ltac:(lia)).
    assert (0 < 16 ^ Z.of_nat (List.length digits))%Z by (apply Z.pow_pos_nonneg; lia).
    nia.
Qed.

Lemma hex_value_bound (digits : str) :
  Forall (fun c => is_hex_digit c = true) digits ->
  (0 <= hex_value digits < 16 ^ Z.of_nat (List.length digits))%Z.
Proof.
  intros H. pose proof (hex_fold_bound digits H 0%Z ltac:(lia)) as B.
  unfold hex_value. lia.
Qed.

Lemma transform_hex (D : N -> option N) (digits : str) :
  Forall (fun c => is_hex_digit c = true) digits ->
  transform_decimal_and_space D digits = digits.
Proof.
  induction 1 as [|c digits Hc _ IH]; simpl; [reflexivity|].
  pose proof (hex_digit_range c Hc) as R.
  replace (c <? 128) with true by (symmetry; hex_test R). now rewrite IH.
Qed.

Lemma skip_base_prefix_hex (digits : str) :
  Forall (fun c => is_hex_digit c = true) digits ->
  skip_base_prefix digits = digits.
Proof.
  intros H. destruct digits as [|c [|x digits]]; try reflexivity. simpl.
  inversion H as [|? ? _ Hrest]; subst. inversion Hrest as [|? ? Hx _]; subst.
  pose proof (hex_digit_range x Hx) as Rx.
  replace (x =? 120) with false by (symmetry; hex_test Rx).
  replace (x =? 88) with false by (symmetry; hex_test Rx).
  now rewrite andb_false_r.
Qed.

(** What is left of [int_base16] once sign and prefix are passed. *)
Lemma digits_accepted (digits : str) :
  hex_digits digits ->
  starts_with_underscore digits = false
  /\ scan_digits false 0 digits = Some (hex_value digits, [])
  /\ (List.length (@nil N) =? List.length digits)%nat = false.
Proof.
  intros [NE H]. destruct digits as [|c digits]; [now destruct NE|].
  inversion H as [|? ? Hc _]; subst.
  pose proof (hex_digit_range c Hc) as R.
  split; [simpl; hex_test R|]. split; [|reflexivity].
  now rewrite scan_digits_hex.
Qed.

Lemma int_base16_signed (D : N -> option N) (digits : str) :
  hex_digits digits -> int_base16 D (45 :: digits) = Return (- hex_value digits)%Z.
Proof.
  intros H. destruct (digits_accepted digits H) as (U & S & Len).
  unfold int_base16. cbn [transform_decimal_and_space].
  change (45 <? 128) with true. cbv iota. rewrite (transform_hex D) by apply H.
  change (skip_c_space (45 :: digits)) with (45 :: digits).
  change (skip_sign (45 :: digits)) with ((-1)%Z, digits).
  cbv beta iota zeta. rewrite skip_base_prefix_hex by apply H.
  rewrite U, S, Len. cbn [skip_c_space]. f_equal; lia.
Qed.

Lemma int_base16_prefixed (D : N -> option N) (digits : str) :
  hex_digits digits -> int_base16 D (lit "0x" ++ digits) = Return (hex_value digits).
Proof.
  intros H. destruct (digits_accepted digits H) as (U & S & Len).
  unfold int_base16. cbn [lit List.map list_ascii_of_string app].
  change (N_of_ascii "0") with 48. change (N_of_ascii "x") with 120.
  cbn [transform_decimal_and_space].
  change (48 <? 128) with true. change (120 <? 128) with true. cbv iota.
  rewrite (transform_hex D) by apply H.
  change (skip_c_space (48 :: 120 :: digits)) with (48 :: 120 :: digits).
  change (skip_sign (48 :: 120 :: digits)) with (1%Z, 48 :: 120 :: digits).
  assert (P : skip_base_prefix (48 :: 120 :: digits) = digits).
  { destruct digits as [|c digits]; [reflexivity|].
    unfold starts_with_underscore in U. cbn [skip_base_prefix].
    change ((48 =? 48) && ((120 =? 120) || (120 =? 88))) with true. cbv iota.
    now rewrite U. }
  cbv beta iota zeta. rewrite P, U, S, Len. cbn [skip_c_space]. f_equal; lia.
Qed.



(* ===================================================================== *)
(** ** Action commands end to end *)
(* ===================================================================== *)

Section ActionCommandExchanges.

Variable unicode_decimal : N -> option N.
Variable PlateShuttleSystemStatus : Type.
Variable from_hex_string : str -> outcome PlateShuttleSystemStatus.

Local Notation "'action'" :=
  (issue_action_command unicode_decimal PlateShuttleSystemStatus from_hex_string).

(** X12. An action command end to end, the device answering [ok], a text
    and a carriage return: the text, without the white space around it, is
    what the status parser is given, and what the parser yields is the
    result, after one write and the reads of one frame. *)
Theorem issue_action_command_round_trip
    (command rest : str) (tail : bytes) (self : SerialPort) :
  let frame := encoding_of command ++ [CR] in
  is_ascii command ->
  is_ascii rest -> ~ In 13 rest ->
  lock self = false ->
  in_waiting (port self) = 0%nat ->
  peer (port self) frame = Some (encoding_of (lit "ok" ++ rest) ++ CR :: tail) ->
  action command self =
  (from_hex_string (strip rest),
   after_exchange self frame (encoding_of (lit "ok" ++ rest) ++ [CR]) tail).
Proof.
  intros frame A R NC L W P. subst frame.
  apply action_ok. apply communicate_text; try assumption.
  - repeat constructor; assumption.
  - intros [E|[E|E]]; [discriminate E | discriminate E | now apply NC].
Qed.

(** X13. An action command end to end, the device answering [er],
    hexadecimal digits and a carriage return: the Communication error
    carries the hexadecimal value of the digits, which lies below 16 to the
    number of digits (below 256 for the two digits of [er XX]). *)
Theorem issue_action_command_error_code
    (command rest : str) (tail : bytes) (self : SerialPort) :
  let frame := encoding_of command ++ [CR] in
  is_ascii command ->
  is_ascii rest -> ~ In 13 rest ->
  hex_digits (strip rest) ->
  lock self = false ->
  in_waiting (port self) = 0%nat ->
  peer (port self) frame = Some (encoding_of (lit "er" ++ rest) ++ CR :: tail) ->
  action command self =
  (Raise (SerialCommunicationError_from_error_code (hex_value (strip rest))),
   after_exchange self frame (encoding_of (lit "er" ++ rest) ++ [CR]) tail)
  /\ (0 <= hex_value (strip rest) < 16 ^ Z.of_nat (List.length (strip rest)))%Z.
Proof.
  intros frame A R NC H L W P. subst frame. split.
  - rewrite (action_er unicode_decimal PlateShuttleSystemStatus from_hex_string
               command rest self
               (after_exchange self (encoding_of command ++ [CR])
                  (encoding_of (lit "er" ++ rest) ++ [CR]) tail)).
    + now rewrite (int_base16_hex unicode_decimal _ H).
    + apply communicate_text; try assumption.
      * repeat constructor; assumption.
      * intros [E|[E|E]]; [discriminate E | discriminate E | now apply NC].
  - apply hex_value_bound. apply H.
Qed.

(** X14. The error code after [er] is read as Python reads an integer
    literal in base 16: a minus sign in front of the digits gives the
    negative code, and the prefix [0x] changes nothing. *)
Theorem issue_action_command_signed_and_prefixed
    (command rest digits : str) (self self' : SerialPort) :
  communicate command self = (Return (lit "er" ++ rest), self') ->
  hex_digits digits ->
  (strip rest = 45 :: digits ->
   action command self =
   (Raise (SerialCommunicationError_from_error_code (- hex_value digits)), self'))
  /\ (strip rest = lit "0x" ++ digits ->
      action command self =
      (Raise (SerialCommunicationError_from_error_code (hex_value digits)), self')).
Proof.
  intros C H.
  pose proof (action_er unicode_decimal PlateShuttleSystemStatus from_hex_string
                command rest self self' C) as E.
  split; intros S; rewrite E, S.
  - now rewrite int_base16_signed.
  - now rewrite int_base16_prefixed.
Qed.

End ActionCommandExchanges.

Lemma issue_action_command_round_trip_witness :
  issue_action_command (fun _ => None) str (fun s => Return s) (lit "ll:in")
    (answering "ok  05 ") =
  (Return (lit "05"),
   after_exchange (answering "ok  05 ") (encoding_of (lit "ll:in") ++ [CR])
     (encoding_of (lit "ok  05 ") ++ [CR]) []).
Proof.
  refine (eq_trans
            (issue_action_command_round_trip (fun _ => None) str (fun s => Return s)
               (lit "ll:in") (lit "  05 ") [] (answering "ok  05 ")
               _ _ _ eq_refl eq_refl eq_refl) eq_refl).
  - repeat constructor.
  - repeat constructor.
  - simpl. intuition discriminate.
Defined.

Lemma issue_action_command_error_code_witness :
  fst (issue_action_command (fun _ => None) str (fun s => Return s) (lit "ll:in")
         (answering "er fF")) =
  Raise (SerialCommunicationError_from_error_code 255).
Proof.
  refine (eq_trans
            (f_equal fst
               (proj1 (issue_action_command_error_code (fun _ => None) str
                         (fun s => Return s) (lit "ll:in") (lit " fF") []
                         (answering "er fF") _ _ _ _ eq_refl eq_refl eq_refl)))
            eq_refl).
  - repeat constructor.
  - repeat constructor.
  - simpl. intuition discriminate.
  - split; [discriminate | repeat constructor].
Defined.

Lemma issue_action_command_signed_and_prefixed_witness :
  fst (issue_action_command (fun _ => None) str (fun s => Return s) (lit "ll:in")
         (answering "er -1A")) =
  Raise (SerialCommunicationError_from_error_code (-26))
  /\ fst (issue_action_command (fun _ => None) str (fun s => Return s) (lit "ll:in")
            (answering "er 0x1A")) =
     Raise (SerialCommunicationError_from_error_code 26).
Proof.
  assert (H : hex_digits (lit "1A")) by (split; [discriminate | repeat constructor]).
  split.
  - refine (eq_trans
              (f_equal fst
                 (proj1 (issue_action_command_signed_and_prefixed (fun _ => None) str
                           (fun s => Return s) (lit "ll:in") (lit " -1A") (lit "1A")
                           (answering "er -1A")
                           (snd (communicate (lit "ll:in") (answering "er -1A")))
                           eq_refl H) eq_refl))
              eq_refl).
  - refine (eq_trans
              (f_equal fst
                 (proj2 (issue_action_command_signed_and_prefixed (fun _ => None) str
                           (fun s => Return s) (lit "ll:in") (lit " 0x1A") (lit "1A")
                           (answering "er 0x1A")
                           (snd (communicate (lit "ll:in") (answering "er 0x1A")))
                           eq_refl H) eq_refl))
              eq_refl).
Defined.




